(** * BattleCard: a shallow embedding of the card contract

    The contract [BattleCard] (Solidity ^0.8.20) keeps a counter [nextId], a
    table [cards] of card records and, through the ERC721 base it inherits,
    the owner of every token.  Its four functions are [mintCard], [getCard],
    [battle] and [upgrade].

    Unsigned integers are values of [N]; every checked operation of
    Solidity 0.8 is written out and reverts with [Panic 0x11] when the result
    does not fit the type.  A contract function is a computation in a state
    and error monad: it either returns a value with the next state or
    reverts.  A reverted transaction leaves the storage as it was
    ([transact]).

    [mintCard] and [upgrade] hand the new token over with [_safeMint], which
    calls [onERC721Received] on a receiver that is a contract before the card
    of the token is written.  The functions are given twice: for receivers
    whose hook makes no call back into the contract ([mintCard], [upgrade],
    [run]), and with the calls the hook makes ([mintCardWith],
    [upgradeWith], [exec], [runTxs]).

    The file also covers two pieces of the [Battle] component of the
    frontend that do not depend on the network: the card selection
    ([toggleCardSelection]) and the batched token scan of
    [loadUserCards]. *)

From Stdlib Require Import NArith List Strings.String Strings.Byte Lia Sorted.
From stdpp Require Import gmap strings list fin_maps.
Import ListNotations.

Module BattleCard.

Local Open Scope N_scope.

(** ** Data *)

Definition address := N.

Definition UINT256_LIMIT : N := 2 ^ 256.
Definition UINT8_LIMIT : N := 2 ^ 8.

(** [struct Card { uint256 power; uint256 defense; uint256 speed; uint8 rarity; }] *)
Record Card := mkCard {
  power : N;
  defense : N;
  speed : N;
  rarity : N  (* 1-5 *)
}.

(** The value a [mapping(uint256 => Card)] holds at a key never written. *)
Definition zeroCard : Card := mkCard 0 0 0 0.

(** Storage: [nextId], [cards], and the ERC721 base's [_owners].  The
    balances, approvals and events of the ERC721 base are not read by any
    function of [BattleCard] and are left out. *)
Record State := mkState {
  nextId : N;
  cards : gmap N Card;
  owners : gmap N address
}.

(** [uint256 public nextId = 1;] and empty mappings. *)
Definition initState : State := mkState 1 ∅ ∅.

(** [block.timestamp] and [msg.sender] of a call. *)
Record Env := mkEnv {
  timestamp : N;
  sender : address
}.

Inductive Error :=
| Panic (code : N)
| RequireFailed (reason : string)
| ERC721NonexistentToken (tokenId : N)
| ERC721InvalidReceiver (receiver : address)
| ERC721InvalidSender (a : address)
| ERC721IncorrectOwner (a : address) (tokenId : N) (owner : address)
| ERC721InsufficientApproval (operator : address) (tokenId : N).

Inductive Result (A : Type) :=
| Ok (a : A)
| Revert (e : Error).
Arguments Ok {A} a.
Arguments Revert {A} e.

(** ** The contract monad *)

Definition Contract (A : Type) : Type := State -> Result (A * State).

Definition ret {A} (a : A) : Contract A := fun s => Ok (a, s).

Definition bind {A B} (c : Contract A) (k : A -> Contract B) : Contract B :=
  fun s => match c s with
           | Ok (a, s') => k a s'
           | Revert e => Revert e
           end.

Definition revert {A} (e : Error) : Contract A := fun _ => Revert e.

Declare Scope contract_scope.
Delimit Scope contract_scope with contract.
Notation "'let*' x ':=' c 'in' k" := (bind c (fun x => k))
  (at level 10, x name, c at level 100, k at level 200) : contract_scope.
Notation "c1 '>>' c2" := (bind c1 (fun _ => c2))
  (at level 100, c2 at level 200, right associativity) : contract_scope.
Local Open Scope contract_scope.

(** [require(cond, reason)] *)
Definition require (cond : bool) (reason : string) : Contract unit :=
  if cond then ret tt else revert (RequireFailed reason).

(** A transaction: a call that reverts leaves the storage untouched. *)
Definition transact {A} (c : Contract A) (s : State) : State :=
  match c s with
  | Ok (_, s') => s'
  | Revert _ => s
  end.

(** A computation that only reads: whenever it returns, the storage is the
    one it started from. *)
Definition readonly {A} (c : Contract A) : Prop :=
  forall s, match c s with
            | Ok (_, s') => s' = s
            | Revert _ => True
            end.

(** Every value the computation returns satisfies [P]. *)
Definition returns {A} (P : A -> Prop) (c : Contract A) : Prop :=
  forall s, match c s with
            | Ok (a, _) => P a
            | Revert _ => True
            end.

(** ** Checked arithmetic (Solidity 0.8) *)

Definition arithmeticPanic : Error := Panic 17.  (* 0x11 *)

Definition add256 (a b : N) : Contract N :=
  if a + b <? UINT256_LIMIT then ret (a + b) else revert arithmeticPanic.

Definition sub256 (a b : N) : Contract N :=
  if b <=? a then ret (a - b) else revert arithmeticPanic.

Definition add8 (a b : N) : Contract N :=
  if a + b <? UINT8_LIMIT then ret (a + b) else revert arithmeticPanic.

(** Explicit conversions [uint256(..)] and [uint8(..)] keep the low bits. *)
Definition uint256 (v : N) : N := v mod UINT256_LIMIT.
Definition uint8 (v : N) : N := v mod UINT8_LIMIT.

(** ** Storage access *)

(** [cards[tokenId]] read: a key never written yields the zero record. *)
Definition lookupCard (s : State) (tokenId : N) : Card :=
  default zeroCard (cards s !! tokenId).

Definition readCard (tokenId : N) : Contract Card :=
  fun s => Ok (lookupCard s tokenId, s).

(** [cards[tokenId] = c] *)
Definition writeCard (tokenId : N) (c : Card) : Contract unit :=
  fun s => Ok (tt, mkState (nextId s) (<[tokenId := c]> (cards s)) (owners s)).

Definition readNextId : Contract N :=
  fun s => Ok (nextId s, s).

Definition writeNextId (n : N) : Contract unit :=
  fun s => Ok (tt, mkState n (cards s) (owners s)).

(** [nextId++]: returns the old value, stores the checked successor. *)
Definition postIncrementNextId : Contract N :=
  let* old := readNextId in
  let* next := add256 old 1 in
  writeNextId next >>
  ret old.

(** [_owners[tokenId]]: [address(0)] for a token that does not exist. *)
Definition ownerAt (s : State) (tokenId : N) : address :=
  default 0 (owners s !! tokenId).

(** The tokens that exist in [s'] and did not exist in [s]. *)
Definition created (s s' : State) : list N :=
  filter (fun id => ownerAt s id = 0 /\ ownerAt s' id <> 0)
         (elements (dom (owners s'))).

(** ** abi.encodePacked *)

Definition byte_of_N (v : N) : byte :=
  match Byte.of_N (v mod 256) with
  | Some b => b
  | None => Byte.x00
  end.

Fixpoint le_bytes (width : nat) (v : N) : list byte :=
  match width with
  | O => []
  | S w => byte_of_N v :: le_bytes w (v / 256)
  end.

(** Big-endian, fixed width: 32 bytes for a [uint256], 20 for an [address]. *)
Definition be_bytes (width : nat) (v : N) : list byte := rev (le_bytes width v).

Definition packUint256 (v : N) : list byte := be_bytes 32 v.
Definition packAddress (a : address) : list byte := be_bytes 20 a.

(** ** Stat ranges

    The range of each stat of the card stored at [id]: at least what a mint
    gives, at most what [id - 1] successive fusions can add. *)
Definition statsWithin (id : N) (c : Card) : Prop :=
  (50 <= power c /\ power c <= 89 + 10 * id) /\
  (30 <= defense c /\ defense c <= 64 + 5 * id) /\
  (10 <= speed c /\ speed c <= 24 + 5 * id) /\
  (1 <= rarity c /\ rarity c <= 4 + id).

(** Every stored card is within its range and every existing token has a
    stored card. *)
Definition cardsBounded (s : State) : Prop :=
  (forall id c, cards s !! id = Some c -> statsWithin id c) /\
  (forall id, ownerAt s id <> 0 -> is_Some (cards s !! id)).

(** ** Rarity mass

    [totalOver weight owners] adds [weight id] over the tokens that exist;
    the rarity mass of a state adds 2^rarity over them. *)
Definition totalOver (weight : N -> N) (owners : gmap N address) : N :=
  map_fold (fun id owner acc => acc + (if owner =? 0 then 0 else weight id)) 0 owners.

Definition rarityMass (s : State) : N :=
  totalOver (fun id => 2 ^ rarity (lookupCard s id)) (owners s).

(** ** The battle view

    The card selection and the token scan of the [Battle] component of the
    frontend.  Alerts are returned next to the state; console output is left
    out. *)
Module Frontend.

(** An entry of [userCards]. *)
Record UserCard := mkUserCard {
  tokenId : string;
  power : N;
  defense : N;
  speed : N;
  character : N;
  rarity : N
}.

(** [toggleCardSelection(tokenId)]: the next [selectedCards] from the
    previous one, and the alert shown, if any. *)
Definition toggleCardSelection (userCards : list UserCard) (id : string)
    (prev : list string) : list string * option string :=
  let cardExists := existsb (fun card => String.eqb (tokenId card) id) userCards in
  if negb cardExists then
    (prev, Some ("Cannot select card #" ++ id ++ ". Make sure you own this card.")%string)
  else if existsb (String.eqb id) prev then
    (List.filter (fun x => negb (String.eqb x id)) prev, None)
  else if (3 <=? length prev)%nat then
    (prev, Some "You can only select 3 cards for battle"%string)
  else (prev ++ [id], None).

(** Toggles in sequence, as clicks arrive. *)
Fixpoint toggleAll (userCards : list UserCard) (clicks : list string)
    (selected : list string) : list string :=
  match clicks with
  | [] => selected
  | id :: rest => toggleAll userCards rest (fst (toggleCardSelection userCards id selected))
  end.

Definition batchSize : N := 10.

(** The values of [i] in [for (let i = startId; i < endId; i++)]. *)
Definition idsFrom (startId endId : N) : list N :=
  map (fun k => startId + N.of_nat k) (seq 0 (N.to_nat (endId - startId))).

(** The scan of [loadUserCards]: token ids from [startId] below [nextIdNum]
    in batches of [batchSize]; [probe i] is what the request for token [i]
    resolves to, a card or null, and the nulls of a batch are filtered out.
    [None] when the fuel runs out before the loop ends. *)
Fixpoint scanBatches {A} (fuel : nat) (probe : N -> option A)
    (startId nextIdNum : N) (ownedCards : list A) : option (list A) :=
  if startId <? nextIdNum then
    match fuel with
    | O => None
    | S fuel' =>
        let endId := N.min (startId + batchSize) nextIdNum in
        let batchResults := map probe (idsFrom startId endId) in
        let validBatchCards := omap (fun c => c) batchResults in
        scanBatches fuel' probe (startId + batchSize) nextIdNum
                    (ownedCards ++ validBatchCards)
    end
  else Some ownedCards.

End Frontend.

(** ** Sample inputs

    A stand-in digest and a receiver check that always passes, to run the
    contract on concrete calls. *)

Definition sampleDigest (bs : list byte) : N :=
  fold_left (fun acc b => acc * 31 + Byte.to_N b) bs 7.

Definition acceptAll (operator receiver : address) (tokenId : N) : bool := true.

Definition alice : address := 2748.
Definition bob : address := 48879.

Definition aliceAt (t : N) : Env := mkEnv t alice.
Definition bobAt (t : N) : Env := mkEnv t bob.

Section Contract.

(** [keccak256], with the 32-byte digest read as a big-endian number. *)
Variable keccak256 : list byte -> N.

(** Outcome of the receiver check of [_safeMint] for a receiver whose
    [onERC721Received] makes no call back into the contract: [true] for an
    externally owned account and for a contract that answers with the
    expected selector, [false] for a contract that answers with another
    value or reverts without a reason.  Arguments: operator, receiver, token.
    Receivers whose hook calls back into the contract, or reverts with a
    reason, are the subject of "Calls with a receiver hook" below. *)
Variable checkOnERC721Received : address -> address -> N -> bool.

(** ** The inherited ERC721 ledger

    The functions of the ERC721 base that [BattleCard] calls, restricted to
    the owner map.  [address(0)] is the owner of a token that does not
    exist. *)

Definition _ownerOf (tokenId : N) : Contract address :=
  fun s => Ok (ownerAt s tokenId, s).

(** [ownerOf] throws for a token that does not exist (EIP-721). *)
Definition ownerOf (tokenId : N) : Contract address :=
  let* owner := _ownerOf tokenId in
  if owner =? 0 then revert (ERC721NonexistentToken tokenId) else ret owner.

Definition setOwner (tokenId : N) (to : address) : Contract unit :=
  fun s => Ok (tt, mkState (nextId s) (cards s) (<[tokenId := to]> (owners s))).

(** [_update(to, tokenId, address(0))]: stores the new owner, returns the
    previous one. *)
Definition _update (to : address) (tokenId : N) : Contract address :=
  let* from := _ownerOf tokenId in
  setOwner tokenId to >>
  ret from.

Definition _mint (to : address) (tokenId : N) : Contract unit :=
  if to =? 0 then revert (ERC721InvalidReceiver 0) else
  let* previousOwner := _update to tokenId in
  if previousOwner =? 0 then ret tt else revert (ERC721InvalidSender 0).

(** [_safeMint] for a receiver whose hook makes no call back into the
    contract; [_safeMintWith] below runs the hook. *)
Definition _safeMint (e : Env) (to : address) (tokenId : N) : Contract unit :=
  _mint to tokenId >>
  if checkOnERC721Received (sender e) to tokenId then ret tt
  else revert (ERC721InvalidReceiver to).

Definition _burn (tokenId : N) : Contract unit :=
  let* previousOwner := _update 0 tokenId in
  if previousOwner =? 0 then revert (ERC721NonexistentToken tokenId) else ret tt.

(** [transferFrom(from, to, tokenId)], the entry point of the ERC721 base
    through which a token changes hands between calls of [BattleCard];
    authorised for the owner (approvals are not part of the state). *)
Definition transferFrom (e : Env) (from to : address) (tokenId : N) : Contract unit :=
  if to =? 0 then revert (ERC721InvalidReceiver 0) else
  let* owner := _ownerOf tokenId in
  if owner =? 0 then revert (ERC721NonexistentToken tokenId) else
  if negb (owner =? sender e) then revert (ERC721InsufficientApproval (sender e) tokenId) else
  let* previousOwner := _update to tokenId in
  if previousOwner =? from then ret tt
  else revert (ERC721IncorrectOwner from tokenId previousOwner).

(** ** Random draws *)

(** [uint256(keccak256(abi.encodePacked(block.timestamp, msg.sender, tokenId)))] *)
Definition mintRand (e : Env) (tokenId : N) : N :=
  uint256 (keccak256 (packUint256 (timestamp e) ++ packAddress (sender e)
                      ++ packUint256 tokenId)).

(** [uint256(keccak256(abi.encodePacked(block.timestamp, msg.sender))) % 10] *)
Definition battleRand (e : Env) : N :=
  uint256 (keccak256 (packUint256 (timestamp e) ++ packAddress (sender e))) mod 10.

(** ** The functions of BattleCard *)

(** The record literal of [mintCard]. *)
Definition mintedCard (rand : N) : Contract Card :=
  let* p := add256 (rand mod 50) 50 in
  let* d := add256 (rand mod 40) 30 in
  let* sp := add256 (rand mod 20) 10 in
  let* r := add256 (rand mod 5) 1 in
  ret (mkCard p d sp (uint8 r)).

Definition mintCard (e : Env) : Contract unit :=
  let* tokenId := postIncrementNextId in
  _safeMint e (sender e) tokenId >>
  let rand := mintRand e tokenId in
  let* c := mintedCard rand in
  writeCard tokenId c.

Definition getCard (tokenId : N) : Contract Card :=
  readCard tokenId.

Definition battle (e : Env) (card1 card2 : N) : Contract string :=
  let* c1 := readCard card1 in
  let* c2 := readCard card2 in
  let* o1 := ownerOf card1 in
  let* valid := (if negb (o1 =? 0)
                 then (let* o2 := ownerOf card2 in ret (negb (o2 =? 0)))
                 else ret false) in
  require valid "Invalid card" >>
  let* t1 := add256 (power c1) (defense c1 / 2) in
  let* score1 := add256 t1 (speed c1) in
  let* t2 := add256 (power c2) (defense c2 / 2) in
  let* score2 := add256 t2 (speed c2) in
  let rand := battleRand e in
  let* score1 := add256 score1 rand in
  let* bonus := sub256 10 rand in
  let* score2 := add256 score2 bonus in
  if score2 <? score1 then ret "Card 1 Wins!"%string
  else if score1 <? score2 then ret "Card 2 Wins!"%string
  else ret "Draw!"%string.

(** The record literal of [upgrade]; the rarity is computed in [uint8]. *)
Definition fusedCard (c1 c2 : Card) : Contract Card :=
  let* p := add256 (power c1) (power c2) in
  let* p := add256 (p / 2) 10 in
  let* d := add256 (defense c1) (defense c2) in
  let* d := add256 (d / 2) 5 in
  let* sp := add256 (speed c1) (speed c2) in
  let* sp := add256 (sp / 2) 5 in
  let* r := add8 (rarity c1) (rarity c2) in
  let* r := add8 (r / 2) 1 in
  ret (mkCard p d sp (uint8 r)).

Definition upgrade (e : Env) (id1 id2 : N) : Contract unit :=
  let* o1 := ownerOf id1 in
  let* mine := (if o1 =? sender e
                then (let* o2 := ownerOf id2 in ret (o2 =? sender e))
                else ret false) in
  require mine "Not owner" >>
  _burn id1 >>
  _burn id2 >>
  let* newId := postIncrementNextId in
  _safeMint e (sender e) newId >>
  let* c1 := readCard id1 in
  let* c2 := readCard id2 in
  let* c := fusedCard c1 c2 in
  writeCard newId c.

(** ** Transactions and traces

    Calls one after the other, none made from inside another. *)

Inductive Call :=
| MintCard
| Upgrade (id1 id2 : N)
| TransferFrom (from to : address) (tokenId : N).

Definition perform (call : Call) (e : Env) : Contract unit :=
  match call with
  | MintCard => mintCard e
  | Upgrade id1 id2 => upgrade e id1 id2
  | TransferFrom from to tokenId => transferFrom e from to tokenId
  end.

Definition step (ec : Env * Call) (s : State) : State :=
  transact (perform (snd ec) (fst ec)) s.

(** Runs the calls in order, each with a receiver whose hook makes no call
    back into the contract; returns the last state and, in order, the ids of
    the tokens the calls brought into existence.  [runTxs] below runs
    transactions whose hooks call back, and agrees with [run] on those
    without ([run_plain]). *)
Fixpoint run (calls : list (Env * Call)) (s : State) : State * list N :=
  match calls with
  | [] => (s, [])
  | ec :: rest =>
      let s1 := step ec s in
      let '(s2, ids) := run rest s1 in
      (s2, created s s1 ++ ids)
  end.

Inductive reachable : State -> Prop :=
| reachable_init : reachable initState
| reachable_step s e call s' :
    reachable s -> perform call e s = Ok (tt, s') -> reachable s'.

(** Every card record and every existing token sits below the counter. *)
Definition wf (s : State) : Prop :=
  1 <= nextId s /\
  forall id, is_Some (cards s !! id) \/ ownerAt s id <> 0 -> 1 <= id < nextId s.

(** ** Calls with a receiver hook

    [_safeMint] calls [onERC721Received] on a receiver that is a contract,
    after the owner of the new token is written and before [mintCard] or
    [upgrade] writes its card, and the hook may call back into the
    contract.  The definitions above are the case of a receiver whose hook
    makes no such call; the ones below take the hook as it runs.

    A computation here returns the ids allocated while it ran, in the order
    of allocation: bookkeeping for the statements, not a value of the
    contract. *)

(** How the hook ends: it returns the expected selector, returns something
    else, or reverts with a reason ([None]: empty revert data). *)
Inductive HookOutcome :=
| HookAccepts
| HookRejects
| HookReverts (reason : option Error).

(** A call by [from] with the script of the hook it triggers: the calls the
    hook makes into the contract, in order, each by its own caller and with
    its own script, and how the hook ends.  A call of the script that reverts
    is undone and the script goes on; a hook that gives up at that point ends
    there with [HookReverts].  An account without code has the empty script
    and [HookAccepts].  [TransferFrom] triggers no hook and ignores the
    script. *)
#[warnings="-register-all"] Inductive Tx :=
| tx (from : address) (call : Call) (hook : list Tx) (outcome : HookOutcome).

(** A call made from a hook: when it reverts, its changes are undone and
    the hook goes on. *)
Definition attempt (c : Contract (list N)) : Contract (list N) :=
  fun s => match c s with
           | Ok r => Ok r
           | Revert _ => Ok ([], s)
           end.

(** [checkOnERC721Received]: runs the hook; a wrong return value or an
    empty revert becomes [ERC721InvalidReceiver], a revert with a reason is
    passed on. *)
Definition checkOnERC721ReceivedWith (to : address) (hook : Contract (list N))
    (outcome : HookOutcome) : Contract (list N) :=
  let* nested := hook in
  match outcome with
  | HookAccepts => ret nested
  | HookRejects => revert (ERC721InvalidReceiver to)
  | HookReverts None => revert (ERC721InvalidReceiver to)
  | HookReverts (Some reason) => revert reason
  end.

Definition _safeMintWith (to : address) (tokenId : N) (hook : Contract (list N))
    (outcome : HookOutcome) : Contract (list N) :=
  _mint to tokenId >>
  checkOnERC721ReceivedWith to hook outcome.

Definition mintCardWith (e : Env) (hook : Contract (list N))
    (outcome : HookOutcome) : Contract (list N) :=
  let* tokenId := postIncrementNextId in
  let* nested := _safeMintWith (sender e) tokenId hook outcome in
  let rand := mintRand e tokenId in
  let* c := mintedCard rand in
  writeCard tokenId c >>
  ret (tokenId :: nested).

Definition upgradeWith (e : Env) (id1 id2 : N) (hook : Contract (list N))
    (outcome : HookOutcome) : Contract (list N) :=
  let* o1 := ownerOf id1 in
  let* mine := (if o1 =? sender e
                then (let* o2 := ownerOf id2 in ret (o2 =? sender e))
                else ret false) in
  require mine "Not owner" >>
  _burn id1 >>
  _burn id2 >>
  let* newId := postIncrementNextId in
  let* nested := _safeMintWith (sender e) newId hook outcome in
  let* c1 := readCard id1 in
  let* c2 := readCard id2 in
  let* c := fusedCard c1 c2 in
  writeCard newId c >>
  ret (newId :: nested).

(** One call with everything its hook does; [block.timestamp] is the same
    for the nested calls, which are all part of one transaction. *)
Fixpoint exec (timestamp : N) (t : Tx) : Contract (list N) :=
  match t with
  | tx from call hook outcome =>
      let e := mkEnv timestamp from in
      let runHook :=
        (fix calls (l : list Tx) : Contract (list N) :=
           match l with
           | [] => ret []
           | t' :: l' =>
               let* a := attempt (exec timestamp t') in
               let* b := calls l' in
               ret (a ++ b)
           end) hook in
      match call with
      | MintCard => mintCardWith e runHook outcome
      | Upgrade id1 id2 => upgradeWith e id1 id2 runHook outcome
      | TransferFrom f to tokenId => transferFrom e f to tokenId >> ret []
      end
  end.

(** The calls of a hook script in sequence. *)
Fixpoint execAll (timestamp : N) (l : list Tx) : Contract (list N) :=
  match l with
  | [] => ret []
  | t :: l' =>
      let* a := attempt (exec timestamp t) in
      let* b := execAll timestamp l' in
      ret (a ++ b)
  end.

(** Transactions in sequence, each with its block time: a transaction that
    reverts changes nothing.  Returns the last state and the ids allocated,
    nested allocations included, in order. *)
Fixpoint runTxs (txs : list (N * Tx)) (s : State) : State * list N :=
  match txs with
  | [] => (s, [])
  | (timestamp, t) :: rest =>
      match exec timestamp t s with
      | Ok (a, s1) => let '(s2, b) := runTxs rest s1 in (s2, a ++ b)
      | Revert _ => runTxs rest s
      end
  end.

(** The range of each stat of the card stored at [id], whatever hooks do: a
    fusion inside a hook can meet a card that is not written yet, so the
    floors are those of a fusion. *)
Definition statsRange (id : N) (c : Card) : Prop :=
  (10 <= power c /\ power c <= 89 + 10 * id) /\
  (5 <= defense c /\ defense c <= 64 + 5 * id) /\
  (5 <= speed c /\ speed c <= 24 + 5 * id) /\
  (1 <= rarity c /\ rarity c <= 4 + id).

Definition cardsInRange (s : State) : Prop :=
  forall id c, cards s !! id = Some c -> statsRange id c.

(** The rarity mass with [reserve id] standing for the card of a token whose
    card is not written yet. *)
Definition weightOf (reserve : N -> N) (s : State) (id : N) : N :=
  match cards s !! id with
  | Some c => 2 ^ rarity c
  | None => reserve id
  end.

Definition massWith (reserve : N -> N) (s : State) : N :=
  totalOver (weightOf reserve s) (owners s).

(** What a call that returned, nested calls included, has done to [s]. *)
Definition extends (s : State) (ids : list N) (s' : State) : Prop :=
  nextId s' = nextId s + N.of_nat (length ids) /\
  StronglySorted N.lt ids /\
  (forall id, id ∈ ids <-> nextId s <= id < nextId s') /\
  (forall id, id < nextId s -> cards s' !! id = cards s !! id) /\
  (forall id, id < nextId s -> ownerAt s id = 0 -> ownerAt s' id = 0) /\
  (forall id, nextId s <= id < nextId s' -> is_Some (cards s' !! id)) /\
  (forall reserve, (forall id, 1 <= reserve id) ->
     massWith reserve s' <= massWith reserve s + 32 * N.of_nat (length ids)).

(** A computation that keeps the invariants and only extends the state. *)
Definition orderly (c : Contract (list N)) : Prop :=
  forall s ids s', wf s -> cardsInRange s -> c s = Ok (ids, s') ->
                   wf s' /\ cardsInRange s' /\ extends s ids s'.

(** A transaction whose receiver hook makes no call and accepts. *)
Definition plain (ec : Env * Call) : N * Tx :=
  (timestamp (fst ec), tx (sender (fst ec)) (snd ec) [] HookAccepts).


(** ** Equations of the building blocks *)

Lemma uint256_limit_large : 1000 < UINT256_LIMIT.
Proof. apply N.ltb_lt. vm_compute. reflexivity. Qed.

Lemma uint8_limit_value : UINT8_LIMIT = 256.
Proof. reflexivity. Qed.

Lemma add256_cases a b s :
  add256 a b s = if a + b <? UINT256_LIMIT then Ok (a + b, s) else Revert arithmeticPanic.
Proof. unfold add256. destruct (_ <? _); reflexivity. Qed.

Lemma add256_fits a b s : a + b < UINT256_LIMIT -> add256 a b s = Ok (a + b, s).
Proof. intros H. rewrite add256_cases. apply N.ltb_lt in H. rewrite H. reflexivity. Qed.

Lemma add8_cases a b s :
  add8 a b s = if a + b <? UINT8_LIMIT then Ok (a + b, s) else Revert arithmeticPanic.
Proof. unfold add8. destruct (_ <? _); reflexivity. Qed.

Lemma sub256_fits a b s : b <= a -> sub256 a b s = Ok (a - b, s).
Proof. intros H. unfold sub256. apply N.leb_le in H. rewrite H. reflexivity. Qed.

Lemma uint256_lt v : uint256 v < UINT256_LIMIT.
Proof. unfold uint256. apply N.mod_lt. pose proof uint256_limit_large. lia. Qed.

Lemma ownerAt_insert n c (o : gmap N address) k v id :
  ownerAt (mkState n c (<[k := v]> o)) id =
  if k =? id then v else ownerAt (mkState n c o) id.
Proof.
  unfold ownerAt. simpl. destruct (N.eqb_spec k id) as [->|Hne].
  - rewrite lookup_insert_eq. reflexivity.
  - rewrite lookup_insert_ne by assumption. reflexivity.
Qed.

Lemma ownerAt_owners n c s id : ownerAt (mkState n c (owners s)) id = ownerAt s id.
Proof. reflexivity. Qed.

Lemma lookupCard_insert n (c : gmap N Card) o k v id :
  lookupCard (mkState n (<[k := v]> c) o) id =
  if k =? id then v else lookupCard (mkState n c o) id.
Proof.
  unfold lookupCard. simpl. destruct (N.eqb_spec k id) as [->|Hne].
  - rewrite lookup_insert_eq. reflexivity.
  - rewrite lookup_insert_ne by assumption. reflexivity.
Qed.

Ltac simpl_state := simpl nextId in *; simpl cards in *; simpl owners in *.

Lemma ownerOf_spec id s :
  ownerOf id s = if ownerAt s id =? 0 then Revert (ERC721NonexistentToken id)
                 else Ok (ownerAt s id, s).
Proof. unfold ownerOf, _ownerOf, bind, ret, revert. destruct (_ =? _); reflexivity. Qed.

Lemma _burn_spec id s :
  _burn id s = if ownerAt s id =? 0 then Revert (ERC721NonexistentToken id)
               else Ok (tt, mkState (nextId s) (cards s) (<[id := 0]> (owners s))).
Proof.
  unfold _burn, _update, _ownerOf, setOwner, bind, ret, revert.
  destruct (_ =? _); reflexivity.
Qed.

Lemma _safeMint_spec e to id s :
  _safeMint e to id s =
  if to =? 0 then Revert (ERC721InvalidReceiver 0)
  else if ownerAt s id =? 0 then
    if checkOnERC721Received (sender e) to id
    then Ok (tt, mkState (nextId s) (cards s) (<[id := to]> (owners s)))
    else Revert (ERC721InvalidReceiver to)
  else Revert (ERC721InvalidSender 0).
Proof.
  unfold _safeMint, _mint, _update, _ownerOf, setOwner, bind, ret, revert.
  destruct (to =? 0); [reflexivity|].
  destruct (ownerAt s id =? 0); [|reflexivity]. simpl.
  destruct (checkOnERC721Received _ _ _); reflexivity.
Qed.

Lemma postIncrementNextId_spec s :
  postIncrementNextId s =
  if nextId s + 1 <? UINT256_LIMIT
  then Ok (nextId s, mkState (nextId s + 1) (cards s) (owners s))
  else Revert arithmeticPanic.
Proof.
  unfold postIncrementNextId, readNextId, writeNextId, add256, bind, ret, revert.
  destruct (_ <? _); reflexivity.
Qed.

Lemma mintedCard_spec r s :
  mintedCard r s =
  Ok (mkCard (r mod 50 + 50) (r mod 40 + 30) (r mod 20 + 10) (r mod 5 + 1), s).
Proof.
  pose proof uint256_limit_large as L.
  assert (r mod 50 < 50) by (apply N.mod_lt; lia).
  assert (r mod 40 < 40) by (apply N.mod_lt; lia).
  assert (r mod 20 < 20) by (apply N.mod_lt; lia).
  assert (r mod 5 < 5) by (apply N.mod_lt; lia).
  unfold mintedCard, bind.
  rewrite !add256_fits by lia. unfold ret, uint8.
  rewrite (N.mod_small (r mod 5 + 1)); [reflexivity|].
  rewrite uint8_limit_value. lia.
Qed.

Lemma fusedCard_spec c1 c2 s :
  fusedCard c1 c2 s =
  if (power c1 + power c2 <? UINT256_LIMIT)
     && ((power c1 + power c2) / 2 + 10 <? UINT256_LIMIT)
     && (defense c1 + defense c2 <? UINT256_LIMIT)
     && ((defense c1 + defense c2) / 2 + 5 <? UINT256_LIMIT)
     && (speed c1 + speed c2 <? UINT256_LIMIT)
     && ((speed c1 + speed c2) / 2 + 5 <? UINT256_LIMIT)
     && (rarity c1 + rarity c2 <? UINT8_LIMIT)
  then Ok (mkCard ((power c1 + power c2) / 2 + 10)
                  ((defense c1 + defense c2) / 2 + 5)
                  ((speed c1 + speed c2) / 2 + 5)
                  ((rarity c1 + rarity c2) / 2 + 1), s)
  else Revert arithmeticPanic.
Proof.
  unfold fusedCard, bind. rewrite !add256_cases.
  repeat (match goal with
          | |- context [?a <? UINT256_LIMIT] =>
              destruct (a <? UINT256_LIMIT) eqn:?; simpl; try reflexivity
          end; rewrite ?add256_cases).
  rewrite add8_cases.
  destruct (rarity c1 + rarity c2 <? UINT8_LIMIT) eqn:Hr; simpl; [|reflexivity].
  rewrite add8_cases.
  apply N.ltb_lt in Hr. rewrite uint8_limit_value in *.
  assert ((rarity c1 + rarity c2) / 2 <= 127).
  { apply N.lt_succ_r. apply N.Div0.div_lt_upper_bound. lia. }
  assert (Hlt : ((rarity c1 + rarity c2) / 2 + 1 <? 256) = true) by (apply N.ltb_lt; lia).
  rewrite Hlt. unfold ret, uint8. rewrite uint8_limit_value.
  rewrite N.mod_small by lia. reflexivity.
Qed.

(** ** Equations of the contract functions *)

Lemma mintCard_spec e s :
  mintCard e s =
  if nextId s + 1 <? UINT256_LIMIT then
    if sender e =? 0 then Revert (ERC721InvalidReceiver 0)
    else if ownerAt s (nextId s) =? 0 then
      if checkOnERC721Received (sender e) (sender e) (nextId s) then
        let r := mintRand e (nextId s) in
        Ok (tt, mkState (nextId s + 1)
                  (<[nextId s := mkCard (r mod 50 + 50) (r mod 40 + 30)
                                        (r mod 20 + 10) (r mod 5 + 1)]> (cards s))
                  (<[nextId s := sender e]> (owners s)))
      else Revert (ERC721InvalidReceiver (sender e))
    else Revert (ERC721InvalidSender 0)
  else Revert arithmeticPanic.
Proof.
  unfold mintCard. unfold bind at 1. rewrite postIncrementNextId_spec.
  destruct (_ <? _); [|reflexivity].
  unfold bind at 1. rewrite _safeMint_spec.
  destruct (sender e =? 0); [reflexivity|].
  rewrite ownerAt_owners.
  destruct (ownerAt s (nextId s) =? 0); [|reflexivity].
  destruct (checkOnERC721Received _ _ _); [|reflexivity].
  unfold bind. rewrite mintedCard_spec. reflexivity.
Qed.

Lemma upgrade_spec e id1 id2 s :
  upgrade e id1 id2 s =
  if ownerAt s id1 =? 0 then Revert (ERC721NonexistentToken id1)
  else if negb (ownerAt s id1 =? sender e) then Revert (RequireFailed "Not owner")
  else if ownerAt s id2 =? 0 then Revert (ERC721NonexistentToken id2)
  else if negb (ownerAt s id2 =? sender e) then Revert (RequireFailed "Not owner")
  else if id1 =? id2 then Revert (ERC721NonexistentToken id2)
  else if negb (nextId s + 1 <? UINT256_LIMIT) then Revert arithmeticPanic
  else if negb ((id2 =? nextId s) || (id1 =? nextId s) || (ownerAt s (nextId s) =? 0))
       then Revert (ERC721InvalidSender 0)
  else if negb (checkOnERC721Received (sender e) (sender e) (nextId s))
       then Revert (ERC721InvalidReceiver (sender e))
  else match fusedCard (lookupCard s id1) (lookupCard s id2) s with
       | Ok (c, _) =>
           Ok (tt, mkState (nextId s + 1) (<[nextId s := c]> (cards s))
                     (<[nextId s := sender e]> (<[id2 := 0]> (<[id1 := 0]> (owners s)))))
       | Revert err => Revert err
       end.
Proof.
  assert (Tail : forall o,
    (let* c1 := readCard id1 in
     let* c2 := readCard id2 in
     let* c := fusedCard c1 c2 in writeCard (nextId s) c)
      (mkState (nextId s + 1) (cards s) o) =
    match fusedCard (lookupCard s id1) (lookupCard s id2) s with
    | Ok (c, _) => Ok (tt, mkState (nextId s + 1) (<[nextId s := c]> (cards s)) o)
    | Revert err => Revert err
    end).
  { intros o. unfold bind, readCard, writeCard. simpl.
    rewrite (fusedCard_spec _ _ (mkState _ _ _)), (fusedCard_spec _ _ s).
    unfold lookupCard. simpl. destruct (_ && _); reflexivity. }
  unfold upgrade. unfold bind at 1. rewrite ownerOf_spec.
  destruct (ownerAt s id1 =? 0) eqn:E1; [reflexivity|].
  unfold bind at 1. unfold bind at 2.
  destruct (ownerAt s id1 =? sender e) eqn:O1; simpl; [|reflexivity].
  unfold bind at 1. rewrite ownerOf_spec.
  destruct (ownerAt s id2 =? 0) eqn:E2; [reflexivity|]. simpl.
  destruct (ownerAt s id2 =? sender e) eqn:O2; simpl; [|reflexivity].
  unfold bind at 1. rewrite _burn_spec, E1.
  unfold bind at 1. rewrite _burn_spec, ownerAt_insert, ownerAt_owners.
  simpl_state.
  destruct (id1 =? id2) eqn:D; simpl; [reflexivity|].
  rewrite E2.
  unfold bind at 1. rewrite postIncrementNextId_spec. simpl_state.
  destruct (nextId s + 1 <? UINT256_LIMIT) eqn:L; simpl; [|reflexivity].
  unfold bind at 1. rewrite _safeMint_spec.
  assert (S0 : (sender e =? 0) = false).
  { apply N.eqb_eq in O1. rewrite <- O1. exact E1. }
  rewrite S0. rewrite !ownerAt_insert, ownerAt_owners. simpl_state.
  destruct (id2 =? nextId s) eqn:D2; simpl.
  - destruct (checkOnERC721Received _ _ _); simpl; [apply Tail|reflexivity].
  - destruct (id1 =? nextId s) eqn:D1; simpl.
    + destruct (checkOnERC721Received _ _ _); simpl; [apply Tail|reflexivity].
    + destruct (ownerAt s (nextId s) =? 0); simpl; [|reflexivity].
      destruct (checkOnERC721Received _ _ _); simpl; [apply Tail|reflexivity].
Qed.

Lemma transferFrom_spec e from to tokenId s :
  transferFrom e from to tokenId s =
  if to =? 0 then Revert (ERC721InvalidReceiver 0)
  else if ownerAt s tokenId =? 0 then Revert (ERC721NonexistentToken tokenId)
  else if negb (ownerAt s tokenId =? sender e)
       then Revert (ERC721InsufficientApproval (sender e) tokenId)
  else if ownerAt s tokenId =? from
       then Ok (tt, mkState (nextId s) (cards s) (<[tokenId := to]> (owners s)))
  else Revert (ERC721IncorrectOwner from tokenId (ownerAt s tokenId)).
Proof.
  unfold transferFrom, _update, _ownerOf, setOwner, bind, ret, revert.
  destruct (to =? 0); [reflexivity|].
  destruct (ownerAt s tokenId =? 0); [reflexivity|].
  destruct (ownerAt s tokenId =? sender e); simpl; [|reflexivity].
  destruct (ownerAt s tokenId =? from); reflexivity.
Qed.

Lemma battle_spec e card1 card2 s :
  let c1 := lookupCard s card1 in
  let c2 := lookupCard s card2 in
  let total1 := power c1 + defense c1 / 2 + speed c1 + battleRand e in
  let total2 := power c2 + defense c2 / 2 + speed c2 + (10 - battleRand e) in
  ownerAt s card1 <> 0 -> ownerAt s card2 <> 0 ->
  total1 < UINT256_LIMIT -> total2 < UINT256_LIMIT ->
  battle e card1 card2 s =
  Ok (if total2 <? total1 then "Card 1 Wins!"%string
      else if total1 <? total2 then "Card 2 Wins!"%string
      else "Draw!"%string, s).
Proof.
  intros c1 c2 total1 total2 H1 H2 F1 F2.
  assert (R : battleRand e < 10) by (unfold battleRand; apply N.mod_lt; lia).
  apply N.eqb_neq in H1, H2.
  unfold battle. unfold bind at 1. unfold readCard at 1.
  unfold bind at 1. unfold readCard at 1.
  unfold bind at 1. rewrite ownerOf_spec, H1.
  unfold bind at 1. rewrite H1. change (negb false) with true. cbv iota.
  unfold bind at 1. rewrite ownerOf_spec, H2. unfold ret at 1. rewrite H2.
  change (negb false) with true.
  unfold bind at 1. unfold require, ret at 1.
  fold c1 c2. subst total1 total2.
  unfold bind. rewrite !add256_fits by lia.
  rewrite sub256_fits by lia. rewrite add256_fits by lia.
  unfold ret.
  destruct (_ <? _); [reflexivity|]. destruct (_ <? _); reflexivity.
Qed.

(** ** What a successful call did *)

Lemma mintCard_inv e s s' :
  mintCard e s = Ok (tt, s') ->
  nextId s + 1 < UINT256_LIMIT /\ sender e <> 0 /\ ownerAt s (nextId s) = 0 /\
  checkOnERC721Received (sender e) (sender e) (nextId s) = true /\
  s' = mkState (nextId s + 1)
         (<[nextId s := let r := mintRand e (nextId s) in
                        mkCard (r mod 50 + 50) (r mod 40 + 30)
                               (r mod 20 + 10) (r mod 5 + 1)]> (cards s))
         (<[nextId s := sender e]> (owners s)).
Proof.
  rewrite mintCard_spec.
  destruct (_ <? _) eqn:L; [|discriminate].
  destruct (sender e =? 0) eqn:S0; [discriminate|].
  destruct (ownerAt s (nextId s) =? 0) eqn:O; [|discriminate].
  destruct (checkOnERC721Received _ _ _) eqn:C; [|discriminate].
  intros H. injection H as <-.
  apply N.ltb_lt in L. apply N.eqb_neq in S0. apply N.eqb_eq in O.
  repeat split; assumption.
Qed.

Lemma upgrade_inv e id1 id2 s s' :
  upgrade e id1 id2 s = Ok (tt, s') ->
  ownerAt s id1 = sender e /\ ownerAt s id2 = sender e /\ sender e <> 0 /\
  id1 <> id2 /\ nextId s + 1 < UINT256_LIMIT /\
  (id2 = nextId s \/ id1 = nextId s \/ ownerAt s (nextId s) = 0) /\
  exists c,
    fusedCard (lookupCard s id1) (lookupCard s id2) s = Ok (c, s) /\
    s' = mkState (nextId s + 1) (<[nextId s := c]> (cards s))
           (<[nextId s := sender e]> (<[id2 := 0]> (<[id1 := 0]> (owners s)))).
Proof.
  rewrite upgrade_spec.
  destruct (ownerAt s id1 =? 0) eqn:E1; [discriminate|].
  destruct (ownerAt s id1 =? sender e) eqn:O1; simpl; [|discriminate].
  destruct (ownerAt s id2 =? 0) eqn:E2; [discriminate|].
  destruct (ownerAt s id2 =? sender e) eqn:O2; simpl; [|discriminate].
  destruct (id1 =? id2) eqn:D; [discriminate|].
  destruct (nextId s + 1 <? UINT256_LIMIT) eqn:L; simpl; [|discriminate].
  destruct (_ || _) eqn:F; simpl; [|discriminate].
  destruct (checkOnERC721Received _ _ _); simpl; [|discriminate].
  pose proof (fusedCard_spec (lookupCard s id1) (lookupCard s id2) s) as FS.
  destruct (fusedCard (lookupCard s id1) (lookupCard s id2) s) as [[c s0]|err] eqn:FC;
    [|discriminate].
  intros H. injection H as <-.
  assert (s0 = s) as -> by (destruct (_ && _); congruence).
  apply N.eqb_eq in O1, O2. apply N.eqb_neq in E1, D. apply N.ltb_lt in L.
  repeat split; try congruence.
  - apply orb_true_iff in F as [F|F]; [apply orb_true_iff in F as [F|F]|];
      apply N.eqb_eq in F; auto.
  - exists c. split; reflexivity.
Qed.

Lemma transferFrom_inv e from to tokenId s s' :
  transferFrom e from to tokenId s = Ok (tt, s') ->
  to <> 0 /\ ownerAt s tokenId <> 0 /\
  s' = mkState (nextId s) (cards s) (<[tokenId := to]> (owners s)).
Proof.
  rewrite transferFrom_spec.
  destruct (to =? 0) eqn:T; [discriminate|].
  destruct (ownerAt s tokenId =? 0) eqn:O; [discriminate|].
  destruct (ownerAt s tokenId =? sender e); simpl; [|discriminate].
  destruct (ownerAt s tokenId =? from); [|discriminate].
  intros H. injection H as <-.
  apply N.eqb_neq in T, O. repeat split; assumption.
Qed.

(** ** The invariant *)

Lemma wf_initState : wf initState.
Proof.
  split; [simpl; lia|].
  intros id [[c H]|H]; [|exfalso; apply H; reflexivity].
  simpl in H. rewrite lookup_empty in H. discriminate.
Qed.

Lemma wf_unowned s id : wf s -> nextId s <= id -> ownerAt s id = 0.
Proof.
  intros [_ W] Hid. destruct (N.eq_dec (ownerAt s id) 0) as [E|E]; [exact E|].
  specialize (W id (or_intror E)). lia.
Qed.

Lemma wf_no_card s id : wf s -> id = 0 \/ nextId s <= id -> cards s !! id = None.
Proof.
  intros [_ W] Hid. destruct (cards s !! id) as [c|] eqn:E; [|reflexivity].
  assert (is_Some (cards s !! id)) as S by (rewrite E; eauto).
  specialize (W id (or_introl S)). lia.
Qed.

Lemma wf_mintCard e s s' : wf s -> mintCard e s = Ok (tt, s') -> wf s'.
Proof.
  intros [W1 W] H. apply mintCard_inv in H as (_ & _ & _ & _ & ->).
  split; simpl_state; [lia|].
  intros id [Hc|Ho].
  - destruct (N.eq_dec (nextId s) id) as [<-|Hne]; [lia|].
    rewrite lookup_insert_ne in Hc by assumption.
    specialize (W id (or_introl Hc)). lia.
  - rewrite ownerAt_insert in Ho.
    destruct (N.eqb_spec (nextId s) id) as [E|Hne]; [lia|].
    specialize (W id (or_intror Ho)). lia.
Qed.

Lemma wf_upgrade e id1 id2 s s' : wf s -> upgrade e id1 id2 s = Ok (tt, s') -> wf s'.
Proof.
  intros [W1 W] H. apply upgrade_inv in H as (_ & _ & _ & _ & _ & _ & c & _ & ->).
  split; simpl_state; [lia|].
  intros id [Hc|Ho].
  - destruct (N.eq_dec (nextId s) id) as [<-|Hne]; [lia|].
    rewrite lookup_insert_ne in Hc by assumption.
    specialize (W id (or_introl Hc)). lia.
  - rewrite !ownerAt_insert in Ho.
    destruct (N.eqb_spec (nextId s) id) as [E|Hne]; [lia|].
    destruct (id2 =? id); [congruence|]. destruct (id1 =? id); [congruence|].
    specialize (W id (or_intror Ho)). lia.
Qed.

Lemma wf_transferFrom e from to tokenId s s' :
  wf s -> transferFrom e from to tokenId s = Ok (tt, s') -> wf s'.
Proof.
  intros [W1 W] H. apply transferFrom_inv in H as (_ & Hex & ->).
  split; simpl_state; [lia|].
  intros id [Hc|Ho]; [exact (W id (or_introl Hc))|].
  rewrite ownerAt_insert in Ho.
  destruct (N.eqb_spec tokenId id) as [E|Hne].
  - rewrite <- E. exact (W tokenId (or_intror Hex)).
  - exact (W id (or_intror Ho)).
Qed.

Lemma wf_perform call e s s' : wf s -> perform call e s = Ok (tt, s') -> wf s'.
Proof.
  destruct call; simpl; eauto using wf_mintCard, wf_upgrade, wf_transferFrom.
Qed.

Lemma reachable_wf s : reachable s -> wf s.
Proof.
  induction 1 as [|s e call s' _ IH H]; [apply wf_initState|].
  exact (wf_perform call e s s' IH H).
Qed.

(** ** Tokens a transaction brings into existence *)

Lemma elem_of_created s s' id :
  id ∈ created s s' <-> ownerAt s id = 0 /\ ownerAt s' id <> 0.
Proof.
  unfold created. rewrite list_elem_of_filter, elem_of_elements, elem_of_dom.
  split; [tauto|]. intros [H0 H1]. split; [tauto|].
  unfold ownerAt in H1. destruct (owners s' !! id); [eauto|]. contradiction.
Qed.

Lemma NoDup_created s s' : NoDup (created s s').
Proof. unfold created. apply NoDup_filter, NoDup_elements. Qed.

Lemma created_none s s' :
  (forall id, ownerAt s id = 0 -> ownerAt s' id = 0) -> created s s' = [].
Proof.
  intros H. apply elem_of_nil_inv. intros id Hin.
  apply elem_of_created in Hin as [H0 H1]. auto.
Qed.

Lemma created_one s s' n :
  ownerAt s n = 0 -> ownerAt s' n <> 0 ->
  (forall id, id <> n -> ownerAt s id = 0 -> ownerAt s' id = 0) ->
  created s s' = [n].
Proof.
  intros H0 H1 Hother.
  assert (Hiff : forall id, id ∈ created s s' <-> id = n).
  { intros id. rewrite elem_of_created. split.
    - intros [Ha Hb]. destruct (N.eq_dec id n); [assumption|].
      exfalso. auto.
    - intros ->. auto. }
  pose proof (NoDup_created s s') as ND.
  destruct (created s s') as [|a [|b l]].
  - exfalso. apply (not_elem_of_nil n), Hiff. reflexivity.
  - f_equal. apply Hiff. left.
  - exfalso. assert (a = n) by (apply Hiff; left).
    assert (b = n) by (apply Hiff; right; left).
    apply NoDup_cons in ND as [ND _]. apply ND. subst. left.
Qed.

Lemma created_mintCard e s s' :
  wf s -> mintCard e s = Ok (tt, s') -> created s s' = [nextId s].
Proof.
  intros W H. apply mintCard_inv in H as (_ & S0 & O & _ & ->).
  apply created_one; [assumption| |].
  - rewrite ownerAt_insert, N.eqb_refl. assumption.
  - intros id Hne Hid. rewrite ownerAt_insert.
    destruct (N.eqb_spec (nextId s) id); [congruence|assumption].
Qed.

Lemma created_upgrade e id1 id2 s s' :
  wf s -> upgrade e id1 id2 s = Ok (tt, s') -> created s s' = [nextId s].
Proof.
  intros W H. apply upgrade_inv in H as (_ & _ & S0 & _ & _ & _ & c & _ & ->).
  apply created_one.
  - apply wf_unowned; [assumption|lia].
  - rewrite ownerAt_insert, N.eqb_refl. assumption.
  - intros id Hne Hid. rewrite !ownerAt_insert.
    destruct (N.eqb_spec (nextId s) id); [congruence|].
    destruct (id2 =? id); [reflexivity|]. destruct (id1 =? id); [reflexivity|].
    assumption.
Qed.

Lemma created_transferFrom e from to tokenId s s' :
  transferFrom e from to tokenId s = Ok (tt, s') -> created s s' = [].
Proof.
  intros H. apply transferFrom_inv in H as (_ & Hex & ->).
  apply created_none. intros id Hid. rewrite ownerAt_insert.
  destruct (N.eqb_spec tokenId id); [congruence|assumption].
Qed.

(** One transaction either allocates exactly the current [nextId] and
    advances the counter by one, or allocates nothing and leaves the counter. *)
Lemma step_effect ec s :
  wf s ->
  wf (step ec s) /\
  ((created s (step ec s) = [nextId s] /\ nextId (step ec s) = nextId s + 1) \/
   (created s (step ec s) = [] /\ nextId (step ec s) = nextId s)).
Proof.
  intros W. destruct ec as [e call]. unfold step, transact. simpl.
  destruct (perform call e s) as [[[] s']|err] eqn:P.
  - split; [exact (wf_perform call e s s' W P)|].
    destruct call; simpl in P.
    + left. split; [exact (created_mintCard e s s' W P)|].
      apply mintCard_inv in P as (_ & _ & _ & _ & ->). reflexivity.
    + left. split; [exact (created_upgrade e id1 id2 s s' W P)|].
      apply upgrade_inv in P as (_ & _ & _ & _ & _ & _ & c & _ & ->). reflexivity.
    + right. split; [exact (created_transferFrom e from to tokenId s s' P)|].
      apply transferFrom_inv in P as (_ & _ & ->). reflexivity.
  - split; [assumption|]. right. split; [|reflexivity].
    apply created_none. auto.
Qed.

Lemma run_ids calls :
  forall s s' ids,
    wf s -> run calls s = (s', ids) ->
    wf s' /\ nextId s <= nextId s' /\ StronglySorted N.lt ids /\
    forall id, id ∈ ids <-> nextId s <= id < nextId s'.
Proof.
  induction calls as [|ec rest IH]; intros s s' ids W R; simpl in R.
  - injection R as <- <-.
    split; [assumption|]. split; [lia|]. split; [constructor|].
    intros id. rewrite elem_of_nil. lia.
  - destruct (run rest (step ec s)) as [s2 ids2] eqn:R2.
    injection R as <- <-.
    destruct (step_effect ec s W) as [W1 Eff].
    destruct (IH _ _ _ W1 R2) as (W2 & Hle & Hsorted & Hmem).
    split; [assumption|].
    destruct Eff as [[-> Hn]|[-> Hn]]; rewrite Hn in *; simpl.
    + split; [lia|]. split.
      * constructor; [assumption|].
        apply Forall_forall. intros x Hx. apply Hmem in Hx. lia.
      * intros id. rewrite elem_of_cons, Hmem. lia.
    + split; [assumption|]. split; assumption.
Qed.

Lemma StronglySorted_lt_NoDup (l : list N) : StronglySorted N.lt l -> NoDup l.
Proof.
  induction 1 as [|a l _ IH Hall]; [constructor|].
  apply NoDup_cons. split; [|assumption].
  intros Hin. rewrite Forall_forall in Hall.
  specialize (Hall a Hin). lia.
Qed.

Lemma run_reachable calls : forall s, reachable s -> reachable (fst (run calls s)).
Proof.
  induction calls as [|[e call] rest IH]; intros s R; simpl; [assumption|].
  destruct (run rest (step (e, call) s)) as [s2 ids2] eqn:R2. simpl.
  change s2 with (fst (s2, ids2)). rewrite <- R2. apply IH.
  unfold step, transact. simpl.
  destruct (perform call e s) as [[[] s']|err] eqn:P; [|assumption].
  exact (reachable_step s e call s' R P).
Qed.

Lemma reachable_run s : reachable s -> exists calls, fst (run calls initState) = s.
Proof.
  assert (App : forall l1 l2 s0, fst (run (l1 ++ l2) s0) = fst (run l2 (fst (run l1 s0)))).
  { induction l1 as [|ec l1 IH]; intros l2 s0; simpl; [reflexivity|].
    specialize (IH l2 (step ec s0)).
    destruct (run (l1 ++ l2) (step ec s0)), (run l1 (step ec s0)). exact IH. }
  induction 1 as [|s e call s' _ [calls IH] H].
  - exists []. reflexivity.
  - exists (calls ++ [(e, call)]). rewrite App, IH. simpl.
    unfold step, transact. simpl. rewrite H. reflexivity.
Qed.

(** ** Read-only computations *)

Lemma readonly_ret {A} (a : A) : readonly (ret a).
Proof. intros s. reflexivity. Qed.

Lemma readonly_revert {A} (err : Error) : readonly (@revert A err).
Proof. intros s. exact I. Qed.

Lemma readonly_bind {A B} (c : Contract A) (k : A -> Contract B) :
  readonly c -> (forall a, readonly (k a)) -> readonly (bind c k).
Proof.
  intros Hc Hk s. unfold bind. specialize (Hc s).
  destruct (c s) as [[a s1]|err]; [|exact I].
  subst s1. apply Hk.
Qed.

Lemma readonly_if {A} (b : bool) (c1 c2 : Contract A) :
  readonly c1 -> readonly c2 -> readonly (if b then c1 else c2).
Proof. destruct b; auto. Qed.

Lemma readonly_require cond reason : readonly (require cond reason).
Proof. unfold require. apply readonly_if; [apply readonly_ret|apply readonly_revert]. Qed.

Lemma readonly_add256 a b : readonly (add256 a b).
Proof. unfold add256. apply readonly_if; [apply readonly_ret|apply readonly_revert]. Qed.

Lemma readonly_sub256 a b : readonly (sub256 a b).
Proof. unfold sub256. apply readonly_if; [apply readonly_ret|apply readonly_revert]. Qed.

Lemma readonly_readCard tokenId : readonly (readCard tokenId).
Proof. intros s. reflexivity. Qed.

Lemma readonly_ownerOf tokenId : readonly (ownerOf tokenId).
Proof.
  unfold ownerOf. apply readonly_bind; [intros s; reflexivity|].
  intros a. apply readonly_if; [apply readonly_revert|apply readonly_ret].
Qed.

Create HintDb readonly.
#[local] Hint Resolve readonly_ret readonly_revert readonly_require readonly_add256
  readonly_sub256 readonly_readCard readonly_ownerOf : readonly.
#[local] Hint Extern 3 (readonly (bind _ _)) =>
  apply readonly_bind; [|intro] : readonly.
#[local] Hint Extern 3 (readonly (if _ then _ else _)) => apply readonly_if : readonly.

Lemma readonly_getCard tokenId : readonly (getCard tokenId).
Proof. unfold getCard. auto with readonly. Qed.

Lemma readonly_battle e card1 card2 : readonly (battle e card1 card2).
Proof. unfold battle. auto 30 with readonly. Qed.

Lemma returns_ret {A} (P : A -> Prop) a : P a -> returns P (ret a).
Proof. intros H s. exact H. Qed.

Lemma returns_bind {A B} (P : B -> Prop) (c : Contract A) (k : A -> Contract B) :
  (forall a, returns P (k a)) -> returns P (bind c k).
Proof.
  intros Hk s. unfold bind. destruct (c s) as [[a s1]|err]; [apply Hk|exact I].
Qed.

Lemma returns_if {A} (P : A -> Prop) (b : bool) (c1 c2 : Contract A) :
  returns P c1 -> returns P c2 -> returns P (if b then c1 else c2).
Proof. destruct b; auto. Qed.

Lemma battle_result e card1 card2 :
  returns (fun r => r = "Card 1 Wins!" \/ r = "Card 2 Wins!" \/ r = "Draw!")%string
          (battle e card1 card2).
Proof.
  unfold battle. repeat (apply returns_bind; intros ?).
  repeat apply returns_if; apply returns_ret; auto.
Qed.

Lemma readonly_transact {A} (c : Contract A) s : readonly c -> transact c s = s.
Proof.
  intros H. unfold transact. specialize (H s).
  destruct (c s) as [[a s1]|err]; [assumption|reflexivity].
Qed.

(** ** Properties of the contract *)

Lemma mod_mod_multiple r b k : b <> 0 -> k <> 0 -> (r mod (b * k)) mod b = r mod b.
Proof.
  intros Hb Hk.
  rewrite (N.Div0.div_mod r (b * k)) at 2.
  rewrite N.add_comm, <- N.mul_assoc, (N.mul_comm b (k * _)).
  rewrite N.Div0.mod_add. reflexivity.
Qed.

(** C1. When both cards exist and the totals fit in [uint256], [battle]
    scores each card as power + defense/2 + speed (truncating division), adds
    the one draw [rand], which is at most 9, to the first card's score and
    exactly [10 - rand] to the second card's, and returns the first card as
    winner when its total is strictly higher, the second card when its total
    is strictly higher, and a draw when the totals are equal. *)
Theorem battle_scoring e card1 card2 s :
  let c1 := lookupCard s card1 in
  let c2 := lookupCard s card2 in
  let rand := battleRand e in
  let score_s := power c1 + defense c1 / 2 + speed c1 in
  let score_o := power c2 + defense c2 / 2 + speed c2 in
  ownerAt s card1 <> 0 -> ownerAt s card2 <> 0 ->
  score_s + rand < UINT256_LIMIT -> score_o + (10 - rand) < UINT256_LIMIT ->
  rand <= 9 /\ rand + (10 - rand) = 10 /\
  (score_o + (10 - rand) < score_s + rand ->
   battle e card1 card2 s = Ok ("Card 1 Wins!"%string, s)) /\
  (score_s + rand < score_o + (10 - rand) ->
   battle e card1 card2 s = Ok ("Card 2 Wins!"%string, s)) /\
  (score_s + rand = score_o + (10 - rand) ->
   battle e card1 card2 s = Ok ("Draw!"%string, s)).
Proof.
  intros c1 c2 rand score_s score_o H1 H2 F1 F2.
  assert (R : rand < 10) by (unfold rand, battleRand; apply N.mod_lt; lia).
  pose proof (battle_spec e card1 card2 s H1 H2 F1 F2) as B.
  fold c1 c2 rand score_s score_o in B.
  split; [lia|]. split; [lia|].
  repeat split; intros Hcmp; rewrite B.
  - apply N.ltb_lt in Hcmp. rewrite Hcmp. reflexivity.
  - destruct (N.ltb_spec (score_o + (10 - rand)) (score_s + rand)); [lia|].
    apply N.ltb_lt in Hcmp. rewrite Hcmp. reflexivity.
  - rewrite Hcmp, N.ltb_irrefl. reflexivity.
Qed.

(** C2. The card stored by a successful [mintCard] has power in [50,99],
    defense in [30,69], speed in [10,29] and rarity in [1,5], whatever the
    digest; it is the card [getCard] returns for the new id. *)
Theorem mint_stat_bounds e s s' :
  mintCard e s = Ok (tt, s') ->
  exists c,
    getCard (nextId s) s' = Ok (c, s') /\
    50 <= power c <= 99 /\ 30 <= defense c <= 69 /\
    10 <= speed c <= 29 /\ 1 <= rarity c <= 5.
Proof.
  intros H. apply mintCard_inv in H as (_ & _ & _ & _ & ->).
  set (r := mintRand e (nextId s)).
  exists (mkCard (r mod 50 + 50) (r mod 40 + 30) (r mod 20 + 10) (r mod 5 + 1)).
  split.
  - unfold getCard, readCard. rewrite lookupCard_insert, N.eqb_refl. reflexivity.
  - cbn [power defense speed rarity].
    assert (Hp : r mod 50 < 50) by (apply N.mod_lt; lia).
    assert (Hd : r mod 40 < 40) by (apply N.mod_lt; lia).
    assert (Hs : r mod 20 < 20) by (apply N.mod_lt; lia).
    assert (Hr : r mod 5 < 5) by (apply N.mod_lt; lia).
    revert Hp Hd Hs Hr.
    generalize (r mod 50), (r mod 40), (r mod 20), (r mod 5).
    intros p d sp ra Hp Hd Hs Hr. lia.
Qed.

Lemma upgrade_new_card e id1 id2 s s' :
  upgrade e id1 id2 s = Ok (tt, s') ->
  let c1 := lookupCard s id1 in
  let c2 := lookupCard s id2 in
  lookupCard s' (nextId s) =
  mkCard ((power c1 + power c2) / 2 + 10) ((defense c1 + defense c2) / 2 + 5)
         ((speed c1 + speed c2) / 2 + 5) ((rarity c1 + rarity c2) / 2 + 1).
Proof.
  intros H c1 c2. apply upgrade_inv in H as (_ & _ & _ & _ & _ & _ & c & FC & ->).
  rewrite lookupCard_insert, N.eqb_refl.
  rewrite fusedCard_spec in FC. fold c1 c2 in FC.
  destruct (_ && _); [|discriminate]. injection FC as <-. reflexivity.
Qed.

(** C3. The card stored by a successful [upgrade] of [id1] and [id2] has
    power (p1 + p2)/2 + 10, defense (d1 + d2)/2 + 5 and speed (s1 + s2)/2 + 5
    with truncating division; from cards (60,40,20,2) and (80,50,25,4) it is
    the card (80,50,27,4). *)
Theorem upgrade_stats e id1 id2 s s' :
  upgrade e id1 id2 s = Ok (tt, s') ->
  let c1 := lookupCard s id1 in
  let c2 := lookupCard s id2 in
  let c := lookupCard s' (nextId s) in
  getCard (nextId s) s' = Ok (c, s') /\
  power c = (power c1 + power c2) / 2 + 10 /\
  defense c = (defense c1 + defense c2) / 2 + 5 /\
  speed c = (speed c1 + speed c2) / 2 + 5 /\
  (c1 = mkCard 60 40 20 2 -> c2 = mkCard 80 50 25 4 -> c = mkCard 80 50 27 4).
Proof.
  intros H c1 c2 c. pose proof (upgrade_new_card e id1 id2 s s' H) as E.
  fold c1 c2 c in E. split; [reflexivity|].
  rewrite E. cbn [power defense speed rarity]. repeat split.
  intros -> ->. reflexivity.
Qed.

(** C9. [battle] is a query: whatever the two ids, the storage after the
    call -- card table, owners and counter -- is the storage before it, and
    when it returns, it returns one of its three result strings. *)
Theorem battle_is_pure e card1 card2 s :
  transact (battle e card1 card2) s = s /\
  match battle e card1 card2 s with
  | Ok (r, s') =>
      nextId s' = nextId s /\ cards s' = cards s /\ owners s' = owners s /\
      (r = "Card 1 Wins!" \/ r = "Card 2 Wins!" \/ r = "Draw!")%string
  | Revert _ => True
  end.
Proof.
  split; [apply readonly_transact, readonly_battle|].
  pose proof (readonly_battle e card1 card2 s) as RO.
  destruct (battle e card1 card2 s) as [[r s']|err] eqn:B; [|exact I].
  subst s'. repeat split.
  pose proof (battle_result e card1 card2 s) as BR. rewrite B in BR. exact BR.
Qed.

(** C10. The four attributes of a minted card come from one draw [r]:
    power = r mod 50 + 50, defense = r mod 40 + 30, speed = r mod 20 + 10,
    rarity = r mod 5 + 1.  Hence power - 50, defense - 30 and speed - 10 are
    pairwise congruent modulo 10, and rarity = (power - 50) mod 5 + 1. *)
Theorem mint_attributes_correlated e s s' :
  mintCard e s = Ok (tt, s') ->
  let c := lookupCard s' (nextId s) in
  let r := mintRand e (nextId s) in
  power c = r mod 50 + 50 /\ defense c = r mod 40 + 30 /\
  speed c = r mod 20 + 10 /\ rarity c = r mod 5 + 1 /\
  (power c - 50) mod 10 = (defense c - 30) mod 10 /\
  (power c - 50) mod 10 = (speed c - 10) mod 10 /\
  (defense c - 30) mod 10 = (speed c - 10) mod 10 /\
  rarity c = (power c - 50) mod 5 + 1.
Proof.
  intros H c r. apply mintCard_inv in H as (_ & _ & _ & _ & ->).
  subst c. rewrite lookupCard_insert, N.eqb_refl.
  cbn [power defense speed rarity]. fold r.
  assert (E50 : (r mod 50) mod 10 = r mod 10)
    by (change 50 with (10 * 5); apply mod_mod_multiple; lia).
  assert (E40 : (r mod 40) mod 10 = r mod 10)
    by (change 40 with (10 * 4); apply mod_mod_multiple; lia).
  assert (E20 : (r mod 20) mod 10 = r mod 10)
    by (change 20 with (10 * 2); apply mod_mod_multiple; lia).
  assert (E5 : (r mod 50) mod 5 = r mod 5)
    by (change 50 with (5 * 10); apply mod_mod_multiple; lia).
  rewrite !N.add_sub, E50, E40, E20, E5.
  repeat split.
Qed.

(** C6, as the code has it.  Unless the caller owns both tokens, [upgrade]
    reverts and the storage is untouched.  The error is "Not owner" when the
    tokens consulted exist; it is the ledger's nonexistent-token error when
    [id1] does not exist, or [id1] is the caller's and [id2] does not
    exist. *)
Theorem upgrade_not_owner_fails e id1 id2 s :
  ~ ((ownerAt s id1 <> 0 /\ ownerAt s id1 = sender e) /\
     (ownerAt s id2 <> 0 /\ ownerAt s id2 = sender e)) ->
  transact (upgrade e id1 id2) s = s /\
  upgrade e id1 id2 s =
    Revert (if ownerAt s id1 =? 0 then ERC721NonexistentToken id1
            else if negb (ownerAt s id1 =? sender e) then RequireFailed "Not owner"
            else if ownerAt s id2 =? 0 then ERC721NonexistentToken id2
            else RequireFailed "Not owner") /\
  (ownerAt s id1 <> 0 -> ownerAt s id2 <> 0 ->
   upgrade e id1 id2 s = Revert (RequireFailed "Not owner")).
Proof.
  intros Hnot.
  assert (U : upgrade e id1 id2 s =
    Revert (if ownerAt s id1 =? 0 then ERC721NonexistentToken id1
            else if negb (ownerAt s id1 =? sender e) then RequireFailed "Not owner"
            else if ownerAt s id2 =? 0 then ERC721NonexistentToken id2
            else RequireFailed "Not owner")).
  { rewrite upgrade_spec.
    destruct (N.eqb_spec (ownerAt s id1) 0) as [E1|E1]; [reflexivity|].
    destruct (N.eqb_spec (ownerAt s id1) (sender e)) as [O1|O1]; simpl; [|reflexivity].
    destruct (N.eqb_spec (ownerAt s id2) 0) as [E2|E2]; [reflexivity|].
    destruct (N.eqb_spec (ownerAt s id2) (sender e)) as [O2|O2]; simpl; [|reflexivity].
    exfalso. apply Hnot. auto. }
  split; [unfold transact; rewrite U; reflexivity|].
  split; [exact U|].
  intros H1 H2. rewrite U.
  apply N.eqb_neq in H1, H2. rewrite H1, H2.
  destruct (negb _); reflexivity.
Qed.


(** C8. The draw is a function of its seed parts alone and always yields a
    value: equal time, sender and sequence number give the same number below
    2^256 (and the same battle draw below 10), reducing it to a card cannot
    revert, and two mints with the same seed parts store the same card
    whatever else the two storages hold. *)
Theorem derive_deterministic_total e1 e2 id1 id2 :
  timestamp e1 = timestamp e2 -> sender e1 = sender e2 -> id1 = id2 ->
  mintRand e1 id1 = mintRand e2 id2 /\ mintRand e1 id1 < UINT256_LIMIT /\
  battleRand e1 = battleRand e2 /\ battleRand e1 < 10 /\
  (forall s, exists c, mintedCard (mintRand e1 id1) s = Ok (c, s)) /\
  (forall s1 s2 s1' s2',
      nextId s1 = id1 -> nextId s2 = id2 ->
      mintCard e1 s1 = Ok (tt, s1') -> mintCard e2 s2 = Ok (tt, s2') ->
      lookupCard s1' id1 = lookupCard s2' id2).
Proof.
  intros Ht Hs Hid.
  assert (E : mintRand e1 id1 = mintRand e2 id2)
    by (unfold mintRand; rewrite Ht, Hs, Hid; reflexivity).
  split; [exact E|]. split; [apply uint256_lt|].
  split; [unfold battleRand; rewrite Ht, Hs; reflexivity|].
  split; [unfold battleRand; apply N.mod_lt; lia|].
  split; [intros s; eexists; apply mintedCard_spec|].
  intros s1 s2 s1' s2' N1 N2 M1 M2.
  apply mintCard_inv in M1 as (_ & _ & _ & _ & ->).
  apply mintCard_inv in M2 as (_ & _ & _ & _ & ->).
  rewrite N1, N2, !lookupCard_insert, !N.eqb_refl, E. reflexivity.
Qed.

(** ** Further behaviour of the contract functions *)

Lemma battle_cases e card1 card2 s :
  let c1 := lookupCard s card1 in
  let c2 := lookupCard s card2 in
  let rand := battleRand e in
  let score1 := power c1 + defense c1 / 2 + speed c1 in
  let score2 := power c2 + defense c2 / 2 + speed c2 in
  battle e card1 card2 s =
  if ownerAt s card1 =? 0 then Revert (ERC721NonexistentToken card1)
  else if ownerAt s card2 =? 0 then Revert (ERC721NonexistentToken card2)
  else if (power c1 + defense c1 / 2 <? UINT256_LIMIT)
          && (score1 <? UINT256_LIMIT)
          && (power c2 + defense c2 / 2 <? UINT256_LIMIT)
          && (score2 <? UINT256_LIMIT)
          && (score1 + rand <? UINT256_LIMIT)
          && (score2 + (10 - rand) <? UINT256_LIMIT)
  then Ok (if score2 + (10 - rand) <? score1 + rand then "Card 1 Wins!"%string
           else if score1 + rand <? score2 + (10 - rand) then "Card 2 Wins!"%string
           else "Draw!"%string, s)
  else Revert arithmeticPanic.
Proof.
  intros c1 c2 rand score1 score2.
  assert (R : rand < 10) by (unfold rand, battleRand; apply N.mod_lt; lia).
  unfold battle. unfold bind at 1. unfold readCard at 1.
  unfold bind at 1. unfold readCard at 1.
  unfold bind at 1. rewrite ownerOf_spec.
  destruct (ownerAt s card1 =? 0) eqn:H1; [reflexivity|].
  unfold bind at 1. rewrite H1. change (negb false) with true. cbv iota.
  unfold bind at 1. rewrite ownerOf_spec.
  destruct (ownerAt s card2 =? 0) eqn:H2; [reflexivity|].
  unfold ret at 1. rewrite H2. change (negb false) with true.
  unfold bind at 1. unfold require, ret at 1.
  fold c1 c2. fold rand.
  unfold bind at 1. rewrite add256_cases.
  destruct (power c1 + defense c1 / 2 <? UINT256_LIMIT); [|reflexivity].
  unfold bind at 1. rewrite add256_cases. fold score1.
  destruct (score1 <? UINT256_LIMIT); [|reflexivity].
  unfold bind at 1. rewrite add256_cases.
  destruct (power c2 + defense c2 / 2 <? UINT256_LIMIT); [|reflexivity].
  unfold bind at 1. rewrite add256_cases. fold score2.
  destruct (score2 <? UINT256_LIMIT); [|reflexivity].
  unfold bind at 1. rewrite add256_cases.
  destruct (score1 + rand <? UINT256_LIMIT); [|reflexivity].
  unfold bind at 1. rewrite sub256_fits by lia.
  unfold bind at 1. rewrite add256_cases.
  destruct (score2 + (10 - rand) <? UINT256_LIMIT); [|reflexivity].
  simpl andb. cbv iota. unfold ret.
  destruct (_ <? _); [reflexivity|]. destruct (_ <? _); reflexivity.
Qed.

(** X1. [upgrade] of a token with itself always reverts, whoever calls it:
    when the caller owns the token the second burn finds it gone.  The
    storage is untouched. *)
Theorem upgrade_same_token_reverts e id s :
  transact (upgrade e id id) s = s /\
  upgrade e id id s =
    Revert (if ownerAt s id =? 0 then ERC721NonexistentToken id
            else if ownerAt s id =? sender e then ERC721NonexistentToken id
            else RequireFailed "Not owner").
Proof.
  assert (U : upgrade e id id s =
    Revert (if ownerAt s id =? 0 then ERC721NonexistentToken id
            else if ownerAt s id =? sender e then ERC721NonexistentToken id
            else RequireFailed "Not owner")).
  { rewrite upgrade_spec, N.eqb_refl.
    destruct (ownerAt s id =? 0); [reflexivity|].
    destruct (ownerAt s id =? sender e); reflexivity. }
  split; [unfold transact; rewrite U; reflexivity|exact U].
Qed.

(** X2. [battle] on a token that does not exist reverts inside [ownerOf]
    with the nonexistent-token error of the first missing card; the
    "Invalid card" message of its [require] is never produced, and the only
    other failure is the arithmetic panic. *)
Theorem battle_missing_card e card1 card2 s :
  (ownerAt s card1 = 0 ->
   battle e card1 card2 s = Revert (ERC721NonexistentToken card1)) /\
  (ownerAt s card1 <> 0 -> ownerAt s card2 = 0 ->
   battle e card1 card2 s = Revert (ERC721NonexistentToken card2)) /\
  (forall err, battle e card1 card2 s = Revert err ->
     err = ERC721NonexistentToken card1 \/ err = ERC721NonexistentToken card2 \/
     err = arithmeticPanic) /\
  battle e card1 card2 s <> Revert (RequireFailed "Invalid card").
Proof.
  pose proof (battle_cases e card1 card2 s) as B. cbv zeta in B.
  assert (Errs : forall err, battle e card1 card2 s = Revert err ->
     err = ERC721NonexistentToken card1 \/ err = ERC721NonexistentToken card2 \/
     err = arithmeticPanic).
  { intros err H. rewrite B in H.
    destruct (ownerAt s card1 =? 0); [injection H as <-; auto|].
    destruct (ownerAt s card2 =? 0); [injection H as <-; auto|].
    destruct (_ && _); [discriminate|]. injection H as <-; auto. }
  split; [|split; [|split; [exact Errs|]]].
  - intros H. rewrite B. apply N.eqb_eq in H. rewrite H. reflexivity.
  - intros H1 H2. rewrite B. apply N.eqb_neq in H1. apply N.eqb_eq in H2.
    rewrite H1, H2. reflexivity.
  - intros H. destruct (Errs _ H) as [E|[E|E]]; discriminate E.
Qed.

(** X3. A lead of 11 points in base score wins for card 1 and a lead of 9
    points wins for card 2, whatever the draw: the draw adds at most 9 to
    card 1 and at least 1 to card 2. *)
Theorem battle_decisive_margin e card1 card2 s :
  let c1 := lookupCard s card1 in
  let c2 := lookupCard s card2 in
  let score_s := power c1 + defense c1 / 2 + speed c1 in
  let score_o := power c2 + defense c2 / 2 + speed c2 in
  ownerAt s card1 <> 0 -> ownerAt s card2 <> 0 ->
  score_s + 10 < UINT256_LIMIT -> score_o + 10 < UINT256_LIMIT ->
  (score_o + 11 <= score_s ->
   battle e card1 card2 s = Ok ("Card 1 Wins!"%string, s)) /\
  (score_s + 9 <= score_o ->
   battle e card1 card2 s = Ok ("Card 2 Wins!"%string, s)).
Proof.
  intros c1 c2 score_s score_o H1 H2 F1 F2.
  assert (R : battleRand e < 10) by (unfold battleRand; apply N.mod_lt; lia).
  assert (B : battle e card1 card2 s =
    Ok (if score_o + (10 - battleRand e) <? score_s + battleRand e
        then "Card 1 Wins!"%string
        else if score_s + battleRand e <? score_o + (10 - battleRand e)
             then "Card 2 Wins!"%string else "Draw!"%string, s)).
  { apply battle_spec; try assumption; fold c1 c2; fold score_s score_o; lia. }
  split; intros M; rewrite B.
  - destruct (N.ltb_spec (score_o + (10 - battleRand e)) (score_s + battleRand e));
      [reflexivity|lia].
  - destruct (N.ltb_spec (score_o + (10 - battleRand e)) (score_s + battleRand e));
      [lia|].
    destruct (N.ltb_spec (score_s + battleRand e) (score_o + (10 - battleRand e)));
      [reflexivity|lia].
Qed.

(** X4. Between cards of equal base score, and so for a card against
    itself, the draw alone decides: card 2 wins for a draw below 5, card 1
    for a draw above 5, and only the draw 5 gives "Draw!". *)
Theorem battle_equal_scores e card1 card2 s :
  let c1 := lookupCard s card1 in
  let c2 := lookupCard s card2 in
  let score_s := power c1 + defense c1 / 2 + speed c1 in
  let score_o := power c2 + defense c2 / 2 + speed c2 in
  ownerAt s card1 <> 0 -> ownerAt s card2 <> 0 ->
  score_s = score_o -> score_s + 10 < UINT256_LIMIT ->
  battle e card1 card2 s =
  Ok (if battleRand e <? 5 then "Card 2 Wins!"%string
      else if battleRand e =? 5 then "Draw!"%string
      else "Card 1 Wins!"%string, s).
Proof.
  intros c1 c2 score_s score_o H1 H2 E F.
  assert (R : battleRand e < 10) by (unfold battleRand; apply N.mod_lt; lia).
  rewrite battle_spec; try assumption; fold c1 c2; fold score_s score_o; try lia.
  rewrite <- E.
  destruct (N.ltb_spec (battleRand e) 5).
  - destruct (N.ltb_spec (score_s + (10 - battleRand e)) (score_s + battleRand e));
      [lia|].
    destruct (N.ltb_spec (score_s + battleRand e) (score_s + (10 - battleRand e)));
      [reflexivity|lia].
  - destruct (N.eqb_spec (battleRand e) 5) as [E5|E5].
    + rewrite E5. change (10 - 5) with 5. rewrite !N.ltb_irrefl. reflexivity.
    + destruct (N.ltb_spec (score_s + (10 - battleRand e)) (score_s + battleRand e));
        [reflexivity|lia].
Qed.


(** ** Stored cards over time *)





(** ** Stat ranges of stored cards *)

Lemma half_sum_bounds a b lo hi :
  lo <= a -> a <= hi -> lo <= b -> b <= hi ->
  lo <= (a + b) / 2 /\ (a + b) / 2 <= hi.
Proof.
  intros La Ha Lb Hb. split.
  - apply N.div_le_lower_bound; lia.
  - apply N.Div0.div_le_upper_bound. lia.
Qed.

Lemma statsWithin_minted r id :
  1 <= id ->
  statsWithin id (mkCard (r mod 50 + 50) (r mod 40 + 30) (r mod 20 + 10) (r mod 5 + 1)).
Proof.
  intros Hid. unfold statsWithin. cbn [power defense speed rarity].
  assert (Hp : r mod 50 < 50) by (apply N.mod_lt; lia).
  assert (Hd : r mod 40 < 40) by (apply N.mod_lt; lia).
  assert (Hs : r mod 20 < 20) by (apply N.mod_lt; lia).
  assert (Hr : r mod 5 < 5) by (apply N.mod_lt; lia).
  revert Hp Hd Hs Hr.
  generalize (r mod 50), (r mod 40), (r mod 20), (r mod 5).
  intros p d sp ra Hp Hd Hs Hr. lia.
Qed.

Lemma statsWithin_fused c1 c2 id1 id2 id :
  statsWithin id1 c1 -> statsWithin id2 c2 -> id1 < id -> id2 < id ->
  statsWithin id (mkCard ((power c1 + power c2) / 2 + 10)
                         ((defense c1 + defense c2) / 2 + 5)
                         ((speed c1 + speed c2) / 2 + 5)
                         ((rarity c1 + rarity c2) / 2 + 1)).
Proof.
  intros ((P1 & P1') & (D1 & D1') & (S1 & S1') & (R1 & R1'))
         ((P2 & P2') & (D2 & D2') & (S2 & S2') & (R2 & R2')) L1 L2.
  unfold statsWithin. cbn [power defense speed rarity].
  destruct (half_sum_bounds (power c1) (power c2) 50 (79 + 10 * id)) as [Pa Pb];
    [lia ..|].
  destruct (half_sum_bounds (defense c1) (defense c2) 30 (59 + 5 * id)) as [Da Db];
    [lia ..|].
  destruct (half_sum_bounds (speed c1) (speed c2) 10 (19 + 5 * id)) as [Sa Sb];
    [lia ..|].
  destruct (half_sum_bounds (rarity c1) (rarity c2) 1 (3 + id)) as [Ra Rb];
    [lia ..|].
  revert Pa Pb Da Db Sa Sb Ra Rb.
  generalize ((power c1 + power c2) / 2), ((defense c1 + defense c2) / 2),
    ((speed c1 + speed c2) / 2), ((rarity c1 + rarity c2) / 2).
  intros p d sp ra Pa Pb Da Db Sa Sb Ra Rb. lia.
Qed.

Lemma cardsBounded_initState : cardsBounded initState.
Proof.
  split.
  - intros id c H. simpl in H. rewrite lookup_empty in H. discriminate.
  - intros id H. exfalso. apply H. reflexivity.
Qed.

Lemma cardsBounded_mintCard e s s' :
  wf s -> cardsBounded s -> mintCard e s = Ok (tt, s') -> cardsBounded s'.
Proof.
  intros [W1 W] [B1 B2] H. apply mintCard_inv in H as (_ & _ & _ & _ & ->).
  split; simpl_state.
  - intros id c Hc. destruct (N.eq_dec (nextId s) id) as [<-|Hne].
    + rewrite lookup_insert_eq in Hc. injection Hc as <-.
      apply statsWithin_minted. assumption.
    + rewrite lookup_insert_ne in Hc by assumption. exact (B1 id c Hc).
  - intros id Ho. rewrite ownerAt_insert in Ho.
    destruct (N.eqb_spec (nextId s) id) as [E|Hne].
    + rewrite E, lookup_insert_eq. eauto.
    + rewrite lookup_insert_ne by assumption. exact (B2 id Ho).
Qed.

Lemma cardsBounded_upgrade e id1 id2 s s' :
  wf s -> cardsBounded s -> upgrade e id1 id2 s = Ok (tt, s') -> cardsBounded s'.
Proof.
  intros [W1 W] [B1 B2] H.
  apply upgrade_inv in H as (O1 & O2 & S0 & _ & _ & _ & c & FC & ->).
  assert (E1 : ownerAt s id1 <> 0) by congruence.
  assert (E2 : ownerAt s id2 <> 0) by congruence.
  pose proof (W id1 (or_intror E1)) as L1. pose proof (W id2 (or_intror E2)) as L2.
  destruct (B2 id1 E1) as [c1 C1]. destruct (B2 id2 E2) as [c2 C2].
  rewrite fusedCard_spec in FC. unfold lookupCard in FC. rewrite C1, C2 in FC.
  simpl in FC. destruct (_ && _); [|discriminate]. injection FC as <-.
  split; simpl_state.
  - intros id c Hc. destruct (N.eq_dec (nextId s) id) as [<-|Hne].
    + rewrite lookup_insert_eq in Hc. injection Hc as <-.
      apply (statsWithin_fused c1 c2 id1 id2); eauto; lia.
    + rewrite lookup_insert_ne in Hc by assumption. exact (B1 id c Hc).
  - intros id Ho. rewrite !ownerAt_insert in Ho.
    destruct (N.eqb_spec (nextId s) id) as [E|Hne].
    + rewrite E, lookup_insert_eq. eauto.
    + rewrite lookup_insert_ne by assumption.
      destruct (id2 =? id); [congruence|]. destruct (id1 =? id); [congruence|].
      exact (B2 id Ho).
Qed.

Lemma cardsBounded_transferFrom e from to tokenId s s' :
  cardsBounded s -> transferFrom e from to tokenId s = Ok (tt, s') -> cardsBounded s'.
Proof.
  intros [B1 B2] H. apply transferFrom_inv in H as (_ & Hex & ->).
  split; simpl_state; [exact B1|].
  intros id Ho. rewrite ownerAt_insert in Ho.
  destruct (N.eqb_spec tokenId id) as [E|Hne].
  - rewrite <- E. exact (B2 tokenId Hex).
  - exact (B2 id Ho).
Qed.

Lemma cardsBounded_step ec s : wf s -> cardsBounded s -> cardsBounded (step ec s).
Proof.
  intros W B. destruct ec as [e call]. unfold step, transact. simpl.
  destruct (perform call e s) as [[[] s']|err] eqn:P; [|assumption].
  destruct call; simpl in P;
    eauto using cardsBounded_mintCard, cardsBounded_upgrade, cardsBounded_transferFrom.
Qed.

Lemma cardsBounded_run calls :
  forall s, wf s -> cardsBounded s -> cardsBounded (fst (run calls s)).
Proof.
  induction calls as [|ec rest IH]; intros s W B; simpl; [assumption|].
  destruct (step_effect ec s W) as [W1 _].
  specialize (IH _ W1 (cardsBounded_step ec s W B)).
  destruct (run rest (step ec s)). exact IH.
Qed.


Lemma cards_dense_step ec s :
  wf s ->
  (forall id, 1 <= id < nextId s -> is_Some (cards s !! id)) ->
  forall id, 1 <= id < nextId (step ec s) -> is_Some (cards (step ec s) !! id).
Proof.
  intros W D id Hid. destruct ec as [e call]. unfold step, transact in *. simpl in *.
  destruct (perform call e s) as [[[] s']|err] eqn:P; [|auto].
  destruct call; simpl in P.
  - apply mintCard_inv in P as (_ & _ & _ & _ & ->). simpl_state.
    destruct (N.eq_dec (nextId s) id) as [<-|Hne].
    + rewrite lookup_insert_eq. eauto.
    + rewrite lookup_insert_ne by assumption. apply D. lia.
  - apply upgrade_inv in P as (_ & _ & _ & _ & _ & _ & c & _ & ->). simpl_state.
    destruct (N.eq_dec (nextId s) id) as [<-|Hne].
    + rewrite lookup_insert_eq. eauto.
    + rewrite lookup_insert_ne by assumption. apply D. lia.
  - apply transferFrom_inv in P as (_ & _ & ->). simpl_state. auto.
Qed.

Lemma cards_dense_run calls :
  forall s, wf s ->
    (forall id, 1 <= id < nextId s -> is_Some (cards s !! id)) ->
    forall id, 1 <= id < nextId (fst (run calls s)) ->
               is_Some (cards (fst (run calls s)) !! id).
Proof.
  induction calls as [|ec rest IH]; intros s W D; simpl; [assumption|].
  destruct (step_effect ec s W) as [W1 _].
  specialize (IH _ W1 (cards_dense_step ec s W D)).
  destruct (run rest (step ec s)). exact IH.
Qed.

Lemma run_invariants calls s ids :
  run calls initState = (s, ids) ->
  wf s /\ cardsBounded s /\
  (forall id, id ∈ ids <-> 1 <= id < nextId s) /\
  (forall id, 1 <= id < nextId s -> is_Some (cards s !! id)).
Proof.
  intros R. destruct (run_ids calls _ _ _ wf_initState R) as (W & _ & _ & Hmem).
  split; [assumption|]. split.
  - pose proof (cardsBounded_run calls initState wf_initState cardsBounded_initState) as B.
    rewrite R in B. exact B.
  - split; [exact Hmem|].
    pose proof (cards_dense_run calls initState wf_initState) as D.
    rewrite R in D. apply D. simpl. intros id Hid. lia.
Qed.


Lemma uint256_limit_value :
  UINT256_LIMIT =
  115792089237316195423570985008687907853269984665640564039457584007913129639936.
Proof. reflexivity. Qed.

Lemma score_fits id c :
  statsWithin id c -> id < 2 ^ 128 ->
  power c + defense c / 2 + speed c + 10 < UINT256_LIMIT.
Proof.
  intros ((_ & P) & (_ & D) & (_ & S) & _) Hid.
  assert (D2 : defense c / 2 <= defense c) by (apply N.Div0.div_le_upper_bound; lia).
  rewrite uint256_limit_value.
  change (2 ^ 128) with 340282366920938463463374607431768211456 in Hid.
  revert D2. generalize (defense c / 2). intros h D2. lia.
Qed.

(** X8. While fewer than 2^128 ids have been allocated, [battle] between two
    existing tokens cannot hit the arithmetic panic: it returns one of its
    three strings and leaves the storage as it is. *)
Theorem battle_returns calls s ids e card1 card2 :
  run calls initState = (s, ids) -> nextId s <= 2 ^ 128 ->
  ownerAt s card1 <> 0 -> ownerAt s card2 <> 0 ->
  exists r, battle e card1 card2 s = Ok (r, s) /\
            (r = "Card 1 Wins!" \/ r = "Card 2 Wins!" \/ r = "Draw!")%string.
Proof.
  intros R Hn H1 H2.
  destruct (run_invariants calls s ids R) as ([_ W] & [B B'] & _ & _).
  destruct (B' card1 H1) as [c1 C1]. destruct (B' card2 H2) as [c2 C2].
  pose proof (W card1 (or_intror H1)) as L1. pose proof (W card2 (or_intror H2)) as L2.
  pose proof (score_fits card1 c1 (B _ _ C1)) as F1.
  pose proof (score_fits card2 c2 (B _ _ C2)) as F2.
  assert (R10 : battleRand e < 10) by (unfold battleRand; apply N.mod_lt; lia).
  eexists. split.
  - apply battle_spec; try assumption; unfold lookupCard; rewrite ?C1, ?C2; simpl; lia.
  - destruct (_ <? _); [auto|]. destruct (_ <? _); auto.
Qed.


(** ** When calls succeed, and what they leave alone *)


Lemma upgrade_succeeds_given_rarity calls s ids e id1 id2 :
  run calls initState = (s, ids) -> nextId s <= 2 ^ 128 ->
  ((exists s', upgrade e id1 id2 s = Ok (tt, s')) <->
   (ownerAt s id1 <> 0 /\ ownerAt s id1 = sender e) /\
   (ownerAt s id2 <> 0 /\ ownerAt s id2 = sender e) /\
   id1 <> id2 /\
   checkOnERC721Received (sender e) (sender e) (nextId s) = true /\
   rarity (lookupCard s id1) + rarity (lookupCard s id2) < UINT8_LIMIT).
Proof.
  intros R Hn. destruct (run_invariants calls s ids R) as (W & [B B'] & _ & _).
  split.
  - intros [s' U]. pose proof U as U'.
    apply upgrade_inv in U as (O1 & O2 & S0 & D & _ & _ & c & FC & _).
    rewrite upgrade_spec in U'.
    assert (E1 : ownerAt s id1 <> 0) by congruence.
    assert (E2 : ownerAt s id2 <> 0) by congruence.
    repeat split; try assumption.
    + apply N.eqb_neq in E1, E2, D. apply N.eqb_eq in O1, O2.
      rewrite E1, O1, E2, O2, D in U'. simpl in U'.
      destruct (nextId s + 1 <? UINT256_LIMIT); [|discriminate]. simpl in U'.
      destruct (negb _); [discriminate|].
      destruct (checkOnERC721Received _ _ _); [reflexivity|discriminate].
    + rewrite fusedCard_spec in FC.
      destruct (rarity (lookupCard s id1) + rarity (lookupCard s id2) <? UINT8_LIMIT)
        eqn:Hr; [apply N.ltb_lt; exact Hr|].
      rewrite andb_false_r in FC. discriminate.
  - intros ((E1 & O1) & (E2 & O2) & D & C & Hr).
    destruct W as [W1 W].
    pose proof (W id1 (or_intror E1)) as L1. pose proof (W id2 (or_intror E2)) as L2.
    destruct (B' id1 E1) as [c1 C1]. destruct (B' id2 E2) as [c2 C2].
    destruct (B _ _ C1) as ((P1 & P1') & (D1 & D1') & (S1 & S1') & _).
    destruct (B _ _ C2) as ((P2 & P2') & (D2 & D2') & (S2 & S2') & _).
    assert (Lc1 : lookupCard s id1 = c1) by (unfold lookupCard; rewrite C1; reflexivity).
    assert (Lc2 : lookupCard s id2 = c2) by (unfold lookupCard; rewrite C2; reflexivity).
    assert (Hn' : nextId s <= 340282366920938463463374607431768211456) by exact Hn.
    rewrite upgrade_spec, fusedCard_spec, Lc1, Lc2 in *.
    apply N.eqb_neq in E1, E2, D. apply N.eqb_eq in O1, O2.
    rewrite E1, O1, E2, O2, D, C. simpl.
    assert (Own : ownerAt s (nextId s) = 0) by (apply wf_unowned; [split; assumption|lia]).
    rewrite Own, N.eqb_refl, !orb_true_r. simpl.
    destruct (half_sum_bounds (power c1) (power c2) 50 (89 + 10 * nextId s)) as [_ Pb];
      [lia ..|].
    destruct (half_sum_bounds (defense c1) (defense c2) 30 (64 + 5 * nextId s)) as [_ Db];
      [lia ..|].
    destruct (half_sum_bounds (speed c1) (speed c2) 10 (24 + 5 * nextId s)) as [_ Sb];
      [lia ..|].
    revert Pb Db Sb.
    generalize ((power c1 + power c2) / 2), ((defense c1 + defense c2) / 2),
      ((speed c1 + speed c2) / 2).
    intros p d sp Pb Db Sb.
    pose proof uint256_limit_value as LV.
    repeat match goal with
           | |- context [?a <? UINT256_LIMIT] =>
               let T := fresh in
               assert (T : (a <? UINT256_LIMIT) = true) by (apply N.ltb_lt; lia);
               rewrite T; clear T
           end.
    apply N.ltb_lt in Hr. rewrite Hr. simpl. eauto.
Qed.


(** X13. Fusing two freshly minted cards always passes the arithmetic of
    [upgrade] and stores a card with power in [60,109], defense in [35,74],
    speed in [15,34] and rarity in [2,6]. *)
Theorem upgrade_of_two_mints e1 e2 e3 s0 s1 s2 s3 :
  mintCard e1 s0 = Ok (tt, s1) -> mintCard e2 s1 = Ok (tt, s2) ->
  upgrade e3 (nextId s0) (nextId s1) s2 = Ok (tt, s3) ->
  exists c, getCard (nextId s2) s3 = Ok (c, s3) /\
    (60 <= power c /\ power c <= 109) /\ (35 <= defense c /\ defense c <= 74) /\
    (15 <= speed c /\ speed c <= 34) /\ (2 <= rarity c /\ rarity c <= 6).
Proof.
  intros M1 M2 U.
  pose proof (upgrade_new_card e3 _ _ _ _ U) as E. cbv zeta in E.
  apply mintCard_inv in M1 as (_ & _ & _ & _ & ->).
  apply mintCard_inv in M2 as (_ & _ & _ & _ & ->).
  simpl_state.
  rewrite !lookupCard_insert, N.eqb_refl in E.
  destruct (N.eqb_spec (nextId s0 + 1) (nextId s0)) as [Bad|_]; [lia|].
  rewrite N.eqb_refl in E. cbn [power defense speed rarity] in E.
  eexists. split; [unfold getCard, readCard; rewrite E; reflexivity|].
  cbn [power defense speed rarity].
  set (r1 := mintRand e1 (nextId s0)). set (r2 := mintRand e2 (nextId s0 + 1)).
  assert (r1 mod 50 < 50 /\ r2 mod 50 < 50) as [Hp1 Hp2]
    by (split; apply N.mod_lt; lia).
  assert (r1 mod 40 < 40 /\ r2 mod 40 < 40) as [Hd1 Hd2]
    by (split; apply N.mod_lt; lia).
  assert (r1 mod 20 < 20 /\ r2 mod 20 < 20) as [Hs1 Hs2]
    by (split; apply N.mod_lt; lia).
  assert (r1 mod 5 < 5 /\ r2 mod 5 < 5) as [Hr1 Hr2]
    by (split; apply N.mod_lt; lia).
  revert Hp1 Hp2 Hd1 Hd2 Hs1 Hs2 Hr1 Hr2.
  generalize (r1 mod 50), (r2 mod 50), (r1 mod 40), (r2 mod 40),
    (r1 mod 20), (r2 mod 20), (r1 mod 5), (r2 mod 5).
  intros p1 p2 d1 d2 sp1 sp2 ra1 ra2 Hp1 Hp2 Hd1 Hd2 Hs1 Hs2 Hr1 Hr2.
  destruct (half_sum_bounds (p1 + 50) (p2 + 50) 50 99) as [Pa Pb]; [lia ..|].
  destruct (half_sum_bounds (d1 + 30) (d2 + 30) 30 69) as [Da Db]; [lia ..|].
  destruct (half_sum_bounds (sp1 + 10) (sp2 + 10) 10 29) as [Sa Sb]; [lia ..|].
  destruct (half_sum_bounds (ra1 + 1) (ra2 + 1) 1 5) as [Ra Rb]; [lia ..|].
  revert Pa Pb Da Db Sa Sb Ra Rb.
  generalize ((p1 + 50 + (p2 + 50)) / 2), ((d1 + 30 + (d2 + 30)) / 2),
    ((sp1 + 10 + (sp2 + 10)) / 2), ((ra1 + 1 + (ra2 + 1)) / 2).
  intros p d sp ra Pa Pb Da Db Sa Sb Ra Rb. lia.
Qed.

(** ** The packed seed *)

Lemma byte_of_N_inj a b : byte_of_N a = byte_of_N b -> a mod 256 = b mod 256.
Proof.
  unfold byte_of_N.
  assert (Ha : a mod 256 < 256) by (apply N.mod_lt; lia).
  assert (Hb : b mod 256 < 256) by (apply N.mod_lt; lia).
  destruct (Byte.of_N (a mod 256)) as [x|] eqn:Ea;
    [|apply Byte.of_N_None_iff in Ea; lia].
  destruct (Byte.of_N (b mod 256)) as [y|] eqn:Eb;
    [|apply Byte.of_N_None_iff in Eb; lia].
  intros ->. apply Byte.to_of_N in Ea, Eb. congruence.
Qed.

Lemma length_le_bytes w : forall v, length (le_bytes w v) = w.
Proof. induction w as [|w IH]; intros v; simpl; [reflexivity|]. rewrite IH. reflexivity. Qed.

Lemma length_be_bytes w v : length (be_bytes w v) = w.
Proof. unfold be_bytes. rewrite length_rev. apply length_le_bytes. Qed.

Lemma le_bytes_inj w :
  forall a b, le_bytes w a = le_bytes w b ->
              a mod 256 ^ N.of_nat w = b mod 256 ^ N.of_nat w.
Proof.
  induction w as [|w IH]; intros a b H.
  - simpl. rewrite !N.mod_1_r. reflexivity.
  - simpl in H. injection H as Hhead Htail.
    apply byte_of_N_inj in Hhead. apply IH in Htail.
    rewrite Nat2N.inj_succ, N.pow_succ_r'.
    rewrite !N.Div0.mod_mul_r. rewrite Hhead, Htail. reflexivity.
Qed.

Lemma be_bytes_inj w a b :
  a < 256 ^ N.of_nat w -> b < 256 ^ N.of_nat w ->
  be_bytes w a = be_bytes w b -> a = b.
Proof.
  intros Ha Hb H. unfold be_bytes in H. apply rev_inj in H.
  apply le_bytes_inj in H. rewrite !N.mod_small in H by assumption. exact H.
Qed.

(** X14. The byte string that [mintCard] hashes is 84 bytes long and
    determines its three parts: two packed seeds are equal only if time,
    sender and token id are equal, for values that fit their types. *)
Theorem mint_seed_unambiguous e1 e2 id1 id2 :
  timestamp e1 < UINT256_LIMIT -> timestamp e2 < UINT256_LIMIT ->
  sender e1 < 2 ^ 160 -> sender e2 < 2 ^ 160 ->
  id1 < UINT256_LIMIT -> id2 < UINT256_LIMIT ->
  length (packUint256 (timestamp e1) ++ packAddress (sender e1) ++ packUint256 id1)
  = 84%nat /\
  (packUint256 (timestamp e1) ++ packAddress (sender e1) ++ packUint256 id1
   = packUint256 (timestamp e2) ++ packAddress (sender e2) ++ packUint256 id2 ->
   timestamp e1 = timestamp e2 /\ sender e1 = sender e2 /\ id1 = id2).
Proof.
  intros T1 T2 S1 S2 I1 I2. unfold packUint256, packAddress. split.
  - rewrite !length_app, !length_be_bytes. reflexivity.
  - intros H.
    apply app_inj_1 in H as [Ht H]; [|rewrite !length_be_bytes; reflexivity].
    apply app_inj_1 in H as [Hs Hi]; [|rewrite !length_be_bytes; reflexivity].
    assert (P32 : 256 ^ N.of_nat 32 = UINT256_LIMIT) by reflexivity.
    assert (P20 : 256 ^ N.of_nat 20 = 2 ^ 160) by reflexivity.
    split; [|split].
    + apply (be_bytes_inj 32); rewrite ?P32; assumption.
    + apply (be_bytes_inj 20); rewrite ?P20; assumption.
    + apply (be_bytes_inj 32); rewrite ?P32; assumption.
Qed.


(** ** Rarity mass *)

Lemma totalOver_empty w : totalOver w ∅ = 0.
Proof. unfold totalOver. apply map_fold_empty. Qed.

Lemma totalOver_insert_fresh w (m : gmap N address) i o :
  m !! i = None ->
  totalOver w (<[i := o]> m) = totalOver w m + (if o =? 0 then 0 else w i).
Proof.
  intros H. unfold totalOver. rewrite map_fold_insert_L; [reflexivity| |assumption].
  intros. lia.
Qed.

Lemma totalOver_delete w (m : gmap N address) i o :
  m !! i = Some o ->
  totalOver w m = totalOver w (delete i m) + (if o =? 0 then 0 else w i).
Proof.
  intros H. unfold totalOver.
  rewrite (map_fold_delete_L _ _ i o m); [reflexivity| |assumption].
  intros. lia.
Qed.

Lemma totalOver_insert w (m : gmap N address) i o :
  totalOver w (<[i := o]> m) + (if default 0 (m !! i) =? 0 then 0 else w i)
  = totalOver w m + (if o =? 0 then 0 else w i).
Proof.
  destruct (m !! i) as [o'|] eqn:E; simpl.
  - rewrite <- (insert_delete_eq m i o).
    rewrite totalOver_insert_fresh by apply lookup_delete_eq.
    rewrite (totalOver_delete w m i o' E).
    destruct (o' =? 0), (o =? 0); rewrite ?N.add_0_r; reflexivity.
  - rewrite totalOver_insert_fresh by assumption. destruct (o =? 0); lia.
Qed.

Lemma totalOver_ext w w' (m : gmap N address) :
  (forall i o, m !! i = Some o -> o <> 0 -> w i = w' i) ->
  totalOver w m = totalOver w' m.
Proof.
  induction m as [|i o m Hi IH] using map_ind; intros H.
  - rewrite !totalOver_empty. reflexivity.
  - rewrite !totalOver_insert_fresh by assumption.
    rewrite IH.
    + destruct (N.eqb_spec o 0) as [|Ho]; [reflexivity|].
      rewrite (H i o); [reflexivity|apply lookup_insert_eq|assumption].
    + intros j o' Hj Ho'. apply (H j o'); [|assumption].
      rewrite lookup_insert_ne; [assumption|].
      intros Heq. subst j. pose proof (eq_trans (eq_sym Hj) Hi) as Bad.
      discriminate Bad.
Qed.

Lemma totalOver_member w (m : gmap N address) i :
  default 0 (m !! i) <> 0 -> w i <= totalOver w m.
Proof.
  intros H. destruct (m !! i) as [o|] eqn:E; simpl in H; [|contradiction].
  rewrite (totalOver_delete w m i o E).
  apply N.eqb_neq in H. rewrite H. lia.
Qed.

Lemma pow2_half_sum a b : 2 ^ ((a + b) / 2 + 1) <= 2 ^ a + 2 ^ b.
Proof.
  destruct (N.eq_dec a b) as [->|Hne].
  - replace ((b + b) / 2) with b.
    + rewrite N.add_1_r, N.pow_succ_r'. lia.
    + replace (b + b) with (b * 2) by lia. rewrite N.div_mul; lia.
  - assert (Hle : (a + b) / 2 + 1 <= N.max a b).
    { assert ((a + b) / 2 < N.max a b); [|lia].
      apply N.Div0.div_lt_upper_bound. lia. }
    apply N.le_trans with (2 ^ N.max a b).
    + apply N.pow_le_mono_r; [lia|assumption].
    + destruct (N.max_spec a b) as [[_ ->]|[_ ->]]; lia.
Qed.

Lemma mass_after_fusion x m2 m1 m0 p w1 w2 :
  m1 + w1 = m0 -> m2 + w2 = m1 -> x = m2 + p -> p <= w1 + w2 -> x <= m0.
Proof. lia. Qed.

Lemma rarityMass_mintCard e s s' :
  wf s -> mintCard e s = Ok (tt, s') -> rarityMass s' <= rarityMass s + 32.
Proof.
  intros W M. apply mintCard_inv in M as (_ & S0 & O & _ & ->).
  unfold rarityMass. simpl_state.
  set (c := mkCard _ _ _ _).
  set (w := fun id => 2 ^ rarity (lookupCard s id)).
  set (w' := fun id => 2 ^ rarity (lookupCard _ id)).
  pose proof (totalOver_insert w' (owners s) (nextId s) (sender e)) as T.
  fold (ownerAt s (nextId s)) in T. rewrite O in T. simpl in T.
  apply N.eqb_neq in S0. rewrite S0 in T.
  assert (Hn : w' (nextId s) = 2 ^ rarity c)
    by (unfold w'; rewrite lookupCard_insert, N.eqb_refl; reflexivity).
  assert (Hext : totalOver w' (owners s) = totalOver w (owners s)).
  { apply totalOver_ext. intros i o Hi Ho. unfold w', w. rewrite lookupCard_insert.
    destruct (N.eqb_spec (nextId s) i) as [E|]; [|reflexivity].
    exfalso. rewrite <- E in Hi. unfold ownerAt in O. rewrite Hi in O. simpl in O.
    contradiction. }
  rewrite Hn, Hext, N.add_0_r in T.
  assert (R5 : 2 ^ rarity c <= 32).
  { change 32 with (2 ^ 5). apply N.pow_le_mono_r; [lia|].
    subst c. cbn [rarity].
    assert (H : mintRand e (nextId s) mod 5 < 5) by (apply N.mod_lt; lia).
    revert H. generalize (mintRand e (nextId s) mod 5). intros; lia. }
  apply N.le_trans with (totalOver w (owners s) + 2 ^ rarity c);
    [apply N.eq_le_incl; exact T|].
  apply N.add_le_mono_l. exact R5.
Qed.

Lemma rarityMass_upgrade e id1 id2 s s' :
  wf s -> upgrade e id1 id2 s = Ok (tt, s') -> rarityMass s' <= rarityMass s.
Proof.
  intros [W1 W] U. pose proof (upgrade_new_card e id1 id2 s s' U) as NC. cbv zeta in NC.
  apply upgrade_inv in U as (O1 & O2 & S0 & D & _ & _ & c & _ & ->).
  assert (E1 : ownerAt s id1 <> 0) by congruence.
  assert (E2 : ownerAt s id2 <> 0) by congruence.
  pose proof (W id1 (or_intror E1)) as L1. pose proof (W id2 (or_intror E2)) as L2.
  assert (On : ownerAt s (nextId s) = 0) by (apply wf_unowned; [split; assumption|lia]).
  rewrite lookupCard_insert, N.eqb_refl in NC.
  unfold rarityMass. simpl_state.
  set (w := fun id => 2 ^ rarity (lookupCard s id)).
  set (w' := fun id => 2 ^ rarity (lookupCard _ id)).
  set (m1 := <[id1 := 0]> (owners s)). set (m2 := <[id2 := 0]> m1).
  pose proof (totalOver_insert w (owners s) id1 0) as T1.
  fold (ownerAt s id1) in T1. fold m1 in T1.
  pose proof (totalOver_insert w m1 id2 0) as T2. fold m2 in T2.
  assert (Q2 : default 0 (m1 !! id2) = ownerAt s id2)
    by (unfold m1; rewrite lookup_insert_ne by assumption; reflexivity).
  rewrite Q2 in T2.
  pose proof (totalOver_insert w' m2 (nextId s) (sender e)) as T3.
  assert (Q3 : default 0 (m2 !! nextId s) = 0).
  { unfold m2, m1. rewrite !lookup_insert_ne by lia. exact On. }
  rewrite Q3 in T3.
  assert (Hext : totalOver w' m2 = totalOver w m2).
  { apply totalOver_ext. intros i o Hi Ho. unfold w', w. rewrite lookupCard_insert.
    destruct (N.eqb_spec (nextId s) i) as [E|]; [|reflexivity].
    exfalso. rewrite <- E in Hi. rewrite Hi in Q3. simpl in Q3. contradiction. }
  assert (Hn : w' (nextId s) = 2 ^ ((rarity (lookupCard s id1) + rarity (lookupCard s id2)) / 2 + 1)).
  { unfold w'. rewrite lookupCard_insert, N.eqb_refl, NC. reflexivity. }
  pose proof (pow2_half_sum (rarity (lookupCard s id1)) (rarity (lookupCard s id2))) as AM.
  apply N.eqb_neq in E1, E2, S0.
  rewrite E1 in T1. rewrite E2 in T2. rewrite S0 in T3.
  simpl in T1, T2, T3. rewrite Hext, Hn in T3.
  fold (w id1) in AM. fold (w id2) in AM.
  rewrite N.add_0_r in T1, T2, T3.
  exact (mass_after_fusion _ _ _ _ _ _ _ T1 T2 T3 AM).
Qed.

Lemma rarityMass_transferFrom e from to tokenId s s' :
  transferFrom e from to tokenId s = Ok (tt, s') -> rarityMass s' = rarityMass s.
Proof.
  intros T. apply transferFrom_inv in T as (T0 & Hex & ->).
  unfold rarityMass. simpl_state.
  set (w := fun id => 2 ^ rarity (lookupCard s id)).
  assert (Hw : (fun id => 2 ^ rarity (lookupCard
             (mkState (nextId s) (cards s) (<[tokenId := to]> (owners s))) id)) = w)
    by reflexivity.
  rewrite Hw.
  pose proof (totalOver_insert w (owners s) tokenId to) as T.
  fold (ownerAt s tokenId) in T.
  apply N.eqb_neq in T0, Hex. rewrite T0, Hex in T.
  apply N.add_cancel_r in T. exact T.
Qed.

Lemma rarityMass_step ec s :
  wf s -> rarityMass s + 32 <= 32 * nextId s ->
  rarityMass (step ec s) + 32 <= 32 * nextId (step ec s).
Proof.
  intros W H. destruct ec as [e call]. unfold step, transact. simpl.
  destruct (perform call e s) as [[[] s']|err] eqn:P; [|assumption].
  destruct call; simpl in P.
  - pose proof (rarityMass_mintCard e s s' W P) as M.
    apply mintCard_inv in P as (_ & _ & _ & _ & E).
    assert (Hn : nextId s' = nextId s + 1) by (rewrite E; reflexivity).
    rewrite Hn. revert H M. generalize (rarityMass s'), (rarityMass s). intros. lia.
  - pose proof (rarityMass_upgrade e id1 id2 s s' W P) as M.
    apply upgrade_inv in P as (_ & _ & _ & _ & _ & _ & c & _ & E).
    assert (Hn : nextId s' = nextId s + 1) by (rewrite E; reflexivity).
    rewrite Hn. revert H M. generalize (rarityMass s'), (rarityMass s). intros. lia.
  - rewrite (rarityMass_transferFrom e from to tokenId s s' P).
    apply transferFrom_inv in P as (_ & _ & E).
    assert (Hn : nextId s' = nextId s) by (rewrite E; reflexivity).
    rewrite Hn. exact H.
Qed.

Lemma rarityMass_run calls :
  forall s, wf s -> rarityMass s + 32 <= 32 * nextId s ->
            rarityMass (fst (run calls s)) + 32 <= 32 * nextId (fst (run calls s)).
Proof.
  induction calls as [|ec rest IH]; intros s W H; simpl; [assumption|].
  destruct (step_effect ec s W) as [W1 _].
  specialize (IH _ W1 (rarityMass_step ec s W H)).
  destruct (run rest (step ec s)). exact IH.
Qed.


Lemma existing_rarity_small calls s ids id :
  run calls initState = (s, ids) -> nextId s <= 2 ^ 123 ->
  ownerAt s id <> 0 -> rarity (lookupCard s id) < 128.
Proof.
  intros R Hn Hex.
  pose proof (rarityMass_run calls initState wf_initState) as M.
  rewrite R in M. simpl in M.
  assert (M0 : rarityMass initState + 32 <= 32 * 1)
    by (unfold rarityMass; simpl; rewrite totalOver_empty; lia).
  specialize (M M0).
  pose proof (totalOver_member (fun id => 2 ^ rarity (lookupCard s id)) (owners s) id Hex)
    as Hmem.
  fold (rarityMass s) in Hmem. cbv beta in Hmem.
  apply (N.pow_lt_mono_r_iff 2); [lia|].
  change (2 ^ 128) with 340282366920938463463374607431768211456.
  change (2 ^ 123) with 10633823966279326983230456482242756608 in Hn.
  revert M Hmem. generalize (rarityMass s), (2 ^ rarity (lookupCard s id)).
  intros. lia.
Qed.

(** X10. In a state reached from the initial one with fewer than 2^123 ids
    allocated, [upgrade] succeeds exactly when the caller owns both tokens,
    the two ids differ and the receiver check passes: none of its checked
    additions can fail, not even the [uint8] sum of the rarities. *)
Theorem upgrade_succeeds_iff calls s ids e id1 id2 :
  run calls initState = (s, ids) -> nextId s <= 2 ^ 123 ->
  ((exists s', upgrade e id1 id2 s = Ok (tt, s')) <->
   (ownerAt s id1 <> 0 /\ ownerAt s id1 = sender e) /\
   (ownerAt s id2 <> 0 /\ ownerAt s id2 = sender e) /\
   id1 <> id2 /\
   checkOnERC721Received (sender e) (sender e) (nextId s) = true).
Proof.
  intros R Hn.
  assert (Hn' : nextId s <= 2 ^ 128).
  { apply N.le_trans with (2 ^ 123); [assumption|].
    apply N.pow_le_mono_r; lia. }
  rewrite (upgrade_succeeds_given_rarity calls s ids e id1 id2 R Hn').
  split.
  - intros (O1 & O2 & D & C & _). auto.
  - intros (O1 & O2 & D & C). repeat split; try tauto.
    pose proof (existing_rarity_small calls s ids id1 R Hn (proj1 O1)) as R1.
    pose proof (existing_rarity_small calls s ids id2 R Hn (proj1 O2)) as R2.
    rewrite uint8_limit_value. lia.
Qed.


(** X20. Fusion raises the top rarity only between equals: the new card
    has rarity r + 1 when both inputs have rarity r, and otherwise a rarity
    above the lower input and not above the higher one. *)
Theorem upgrade_rarity_gain e id1 id2 s s' :
  upgrade e id1 id2 s = Ok (tt, s') ->
  let r1 := rarity (lookupCard s id1) in
  let r2 := rarity (lookupCard s id2) in
  let r := rarity (lookupCard s' (nextId s)) in
  (r1 = r2 -> r = r1 + 1) /\
  (r1 <> r2 -> N.min r1 r2 < r /\ r <= N.max r1 r2).
Proof.
  intros U r1 r2 r. pose proof (upgrade_new_card e id1 id2 s s' U) as NC.
  cbv zeta in NC. subst r. rewrite NC. cbn [rarity]. fold r1 r2.
  split.
  - intros <-. replace (r1 + r1) with (r1 * 2) by lia. rewrite N.div_mul; lia.
  - intros Hne.
    assert (Hlo : N.min r1 r2 <= (r1 + r2) / 2) by (apply N.div_le_lower_bound; lia).
    assert (Hhi : (r1 + r2) / 2 < N.max r1 r2) by (apply N.Div0.div_lt_upper_bound; lia).
    revert Hlo Hhi. generalize ((r1 + r2) / 2). intros h Hlo Hhi. lia.
Qed.

(** ** Calls with a receiver hook: equations *)

Lemma Tx_nested_ind (P : Tx -> Prop) :
  (forall from call hook outcome, Forall P hook -> P (tx from call hook outcome)) ->
  forall t, P t.
Proof.
  intros H. fix IH 1. intros [from call hook outcome]. apply H.
  induction hook as [|t l IHl]; constructor; [apply IH|exact IHl].
Qed.

Lemma exec_unfold timestamp from call hook outcome :
  exec timestamp (tx from call hook outcome) =
  match call with
  | MintCard => mintCardWith (mkEnv timestamp from) (execAll timestamp hook) outcome
  | Upgrade id1 id2 =>
      upgradeWith (mkEnv timestamp from) id1 id2 (execAll timestamp hook) outcome
  | TransferFrom f to tokenId => transferFrom (mkEnv timestamp from) f to tokenId >> ret []
  end.
Proof.
  assert (E : (fix calls (l : list Tx) : Contract (list N) :=
                 match l with
                 | [] => ret []
                 | t' :: l' =>
                     let* a := attempt (exec timestamp t') in
                     let* b := calls l' in
                     ret (a ++ b)
                 end) hook = execAll timestamp hook).
  { induction hook as [|t l IH]; [reflexivity|]. simpl. rewrite IH. reflexivity. }
  simpl. rewrite E. reflexivity.
Qed.

Lemma _mint_spec to id s :
  _mint to id s =
  if to =? 0 then Revert (ERC721InvalidReceiver 0)
  else if ownerAt s id =? 0
       then Ok (tt, mkState (nextId s) (cards s) (<[id := to]> (owners s)))
       else Revert (ERC721InvalidSender 0).
Proof.
  unfold _mint, _update, _ownerOf, setOwner, bind, ret, revert.
  destruct (to =? 0); [reflexivity|].
  destruct (ownerAt s id =? 0); reflexivity.
Qed.

Lemma checkOnERC721ReceivedWith_inv to hook outcome s ids s' :
  checkOnERC721ReceivedWith to hook outcome s = Ok (ids, s') ->
  hook s = Ok (ids, s') /\ outcome = HookAccepts.
Proof.
  unfold checkOnERC721ReceivedWith, bind.
  destruct (hook s) as [[nested s2]|err]; [|discriminate].
  destruct outcome as [| |[reason|]]; try discriminate.
  intros H. injection H as <- <-. split; reflexivity.
Qed.

Lemma mintCardWith_inv e hook outcome s ids s' :
  mintCardWith e hook outcome s = Ok (ids, s') ->
  nextId s + 1 < UINT256_LIMIT /\ sender e <> 0 /\ ownerAt s (nextId s) = 0 /\
  outcome = HookAccepts /\
  exists nested s2,
    hook (mkState (nextId s + 1) (cards s) (<[nextId s := sender e]> (owners s)))
      = Ok (nested, s2) /\
    ids = nextId s :: nested /\
    s' = mkState (nextId s2)
           (<[nextId s := let r := mintRand e (nextId s) in
                          mkCard (r mod 50 + 50) (r mod 40 + 30)
                                 (r mod 20 + 10) (r mod 5 + 1)]> (cards s2))
           (owners s2).
Proof.
  unfold mintCardWith. unfold bind at 1. rewrite postIncrementNextId_spec.
  destruct (_ <? _) eqn:L; [|discriminate].
  unfold bind at 1. unfold _safeMintWith. unfold bind at 1. rewrite _mint_spec.
  destruct (sender e =? 0) eqn:S0; [discriminate|].
  rewrite ownerAt_owners.
  destruct (ownerAt s (nextId s) =? 0) eqn:O; [|discriminate].
  simpl_state.
  destruct (checkOnERC721ReceivedWith _ _ _ _) as [[nested s2]|err] eqn:C; [|discriminate].
  apply checkOnERC721ReceivedWith_inv in C as [C ->].
  unfold bind. rewrite mintedCard_spec. unfold writeCard, ret.
  intros H. injection H as <- <-.
  apply N.ltb_lt in L. apply N.eqb_neq in S0. apply N.eqb_eq in O.
  repeat split; try assumption. exists nested, s2. repeat split. exact C.
Qed.

Lemma upgradeWith_inv e id1 id2 hook outcome s ids s' :
  upgradeWith e id1 id2 hook outcome s = Ok (ids, s') ->
  ownerAt s id1 = sender e /\ ownerAt s id2 = sender e /\ sender e <> 0 /\
  id1 <> id2 /\ nextId s + 1 < UINT256_LIMIT /\
  (id2 = nextId s \/ id1 = nextId s \/ ownerAt s (nextId s) = 0) /\
  outcome = HookAccepts /\
  exists nested s2 c,
    hook (mkState (nextId s + 1) (cards s)
            (<[nextId s := sender e]> (<[id2 := 0]> (<[id1 := 0]> (owners s)))))
      = Ok (nested, s2) /\
    fusedCard (lookupCard s2 id1) (lookupCard s2 id2) s2 = Ok (c, s2) /\
    ids = nextId s :: nested /\
    s' = mkState (nextId s2) (<[nextId s := c]> (cards s2)) (owners s2).
Proof.
  unfold upgradeWith. unfold bind at 1. rewrite ownerOf_spec.
  destruct (ownerAt s id1 =? 0) eqn:E1; [discriminate|].
  unfold bind at 1. unfold bind at 2.
  destruct (ownerAt s id1 =? sender e) eqn:O1; simpl; [|discriminate].
  unfold bind at 1. rewrite ownerOf_spec.
  destruct (ownerAt s id2 =? 0) eqn:E2; [discriminate|]. simpl.
  destruct (ownerAt s id2 =? sender e) eqn:O2; simpl; [|discriminate].
  unfold bind at 1. rewrite _burn_spec, E1.
  unfold bind at 1. rewrite _burn_spec, ownerAt_insert, ownerAt_owners.
  simpl_state.
  destruct (id1 =? id2) eqn:D; simpl; [discriminate|].
  rewrite E2.
  unfold bind at 1. rewrite postIncrementNextId_spec. simpl_state.
  destruct (nextId s + 1 <? UINT256_LIMIT) eqn:L; simpl; [|discriminate].
  unfold bind at 1. unfold _safeMintWith. unfold bind at 1. rewrite _mint_spec.
  assert (S0 : (sender e =? 0) = false).
  { apply N.eqb_eq in O1. rewrite <- O1. exact E1. }
  rewrite S0. rewrite !ownerAt_insert, ownerAt_owners. simpl_state.
  match goal with
  | |- context [if ?b then Ok _ else Revert (ERC721InvalidSender 0)] => destruct b eqn:F
  end; [|discriminate].
  destruct (checkOnERC721ReceivedWith _ _ _ _) as [[nested s2]|err] eqn:C; [|discriminate].
  apply checkOnERC721ReceivedWith_inv in C as [C ->].
  unfold bind, readCard.
  pose proof (fusedCard_spec (lookupCard s2 id1) (lookupCard s2 id2) s2) as FS.
  destruct (fusedCard (lookupCard s2 id1) (lookupCard s2 id2) s2) as [[c s0]|err] eqn:FC;
    [|discriminate].
  assert (s0 = s2) as -> by (destruct (_ && _); congruence).
  unfold writeCard, ret. intros H. injection H as <- <-.
  apply N.eqb_eq in O1, O2. apply N.eqb_neq in E1, D. apply N.ltb_lt in L.
  repeat split; try congruence.
  - destruct (N.eqb_spec id2 (nextId s)); [auto|].
    destruct (N.eqb_spec id1 (nextId s)); [auto|].
    apply N.eqb_eq in F. auto.
  - exists nested, s2, c. repeat split; assumption.
Qed.

(** ** Calls with a receiver hook: what they preserve *)

Lemma StronglySorted_lt_app (a b : list N) :
  StronglySorted N.lt a -> StronglySorted N.lt b ->
  (forall x y, x ∈ a -> y ∈ b -> x < y) ->
  StronglySorted N.lt (a ++ b).
Proof.
  intros Sa Sb H. induction Sa as [|x a Sa IH Hx]; simpl; [exact Sb|].
  constructor.
  - apply IH. intros u v Hu Hv. apply H; [right; exact Hu|exact Hv].
  - apply Forall_app. split; [exact Hx|].
    apply Forall_forall. intros y Hy. apply H; [left|exact Hy].
Qed.

Lemma totalOver_mono w w' (m : gmap N address) :
  (forall i o, m !! i = Some o -> o <> 0 -> w i <= w' i) ->
  totalOver w m <= totalOver w' m.
Proof.
  induction m as [|i o m Hi IH] using map_ind; intros H.
  - rewrite !totalOver_empty. lia.
  - rewrite !totalOver_insert_fresh by assumption.
    assert (T : totalOver w m <= totalOver w' m).
    { apply IH. intros j o' Hj Ho'. apply (H j o'); [|assumption].
      rewrite lookup_insert_ne; [assumption|].
      intros Heq. subst j. pose proof (eq_trans (eq_sym Hj) Hi) as Bad.
      discriminate Bad. }
    destruct (N.eqb_spec o 0) as [|Ho]; [lia|].
    pose proof (H i o (lookup_insert_eq m i o) Ho). lia.
Qed.

Lemma extends_refl s : extends s [] s.
Proof.
  unfold extends. simpl length. change (N.of_nat 0) with 0.
  split; [lia|]. split; [constructor|].
  split; [intros id; split; [intros H; apply elem_of_nil in H; contradiction|lia]|].
  split; [reflexivity|]. split; [auto|]. split; [intros id H; lia|].
  intros reserve _. generalize (massWith reserve s). intros. lia.
Qed.

Lemma extends_trans s a s1 b s2 :
  extends s a s1 -> extends s1 b s2 -> extends s (a ++ b) s2.
Proof.
  intros (N1 & S1 & M1 & C1 & O1 & D1 & W1) (N2 & S2 & M2 & C2 & O2 & D2 & W2).
  unfold extends. rewrite length_app, Nat2N.inj_add.
  split; [lia|]. split; [|split; [|split; [|split; [|split]]]].
  - apply StronglySorted_lt_app; try assumption.
    intros x y Hx Hy. apply M1 in Hx. apply M2 in Hy. lia.
  - intros id. rewrite elem_of_app, M1, M2. lia.
  - intros id Hid. rewrite C2 by lia. apply C1. exact Hid.
  - intros id Hid H0. apply O2; [lia|]. apply O1; assumption.
  - intros id Hid. destruct (N.lt_ge_cases id (nextId s1)) as [Hlt|Hge].
    + rewrite C2 by exact Hlt. apply D1. lia.
    + apply D2. lia.
  - intros reserve Hr. specialize (W1 reserve Hr). specialize (W2 reserve Hr).
    revert W1 W2.
    generalize (massWith reserve s2), (massWith reserve s1), (massWith reserve s).
    intros. lia.
Qed.

Lemma orderly_ret_nil : orderly (ret []).
Proof.
  intros s ids s' W B H. injection H as <- <-.
  split; [assumption|]. split; [assumption|apply extends_refl].
Qed.

Lemma orderly_attempt c : orderly c -> orderly (attempt c).
Proof.
  intros Hc s ids s' W B H. unfold attempt in H.
  destruct (c s) as [[ids0 s0]|err] eqn:E.
  - injection H as <- <-. exact (Hc s ids0 s0 W B E).
  - injection H as <- <-.
    split; [assumption|]. split; [assumption|apply extends_refl].
Qed.

Lemma orderly_seq c1 c2 :
  orderly c1 -> orderly c2 ->
  orderly (let* a := c1 in let* b := c2 in ret (a ++ b)).
Proof.
  intros H1 H2 s ids s' W B H. unfold bind, ret in H.
  destruct (c1 s) as [[a s1]|err] eqn:E1; [|discriminate].
  destruct (c2 s1) as [[b s2]|err] eqn:E2; [|discriminate].
  injection H as <- <-.
  destruct (H1 s a s1 W B E1) as (W1 & B1 & X1).
  destruct (H2 s1 b s2 W1 B1 E2) as (W2 & B2 & X2).
  split; [assumption|]. split; [assumption|].
  exact (extends_trans s a s1 b s2 X1 X2).
Qed.

Lemma massWith_transfer reserve n c (o : gmap N address) tokenId to :
  to <> 0 -> default 0 (o !! tokenId) <> 0 ->
  massWith reserve (mkState n c (<[tokenId := to]> o)) = massWith reserve (mkState n c o).
Proof.
  intros T Hex. unfold massWith. simpl_state.
  change (weightOf reserve (mkState n c (<[tokenId := to]> o)))
    with (weightOf reserve (mkState n c o)).
  pose proof (totalOver_insert (weightOf reserve (mkState n c o)) o tokenId to) as E.
  apply N.eqb_neq in T, Hex. rewrite T, Hex in E.
  exact (proj1 (N.add_cancel_r _ _ _) E).
Qed.

Lemma orderly_transferFrom e from to tokenId :
  orderly (transferFrom e from to tokenId >> ret []).
Proof.
  intros s ids s' W B H. unfold bind, ret in H.
  destruct (transferFrom e from to tokenId s) as [[[] s1]|err] eqn:E; [|discriminate].
  injection H as <- <-.
  pose proof (wf_transferFrom e from to tokenId s s1 W E) as W1.
  apply transferFrom_inv in E as (T & Hex & ->).
  split; [assumption|]. split; [exact B|].
  unfold extends. simpl_state.
  split; [simpl; lia|]. split; [constructor|].
  split; [intros id; split; [intros H; apply elem_of_nil in H; contradiction|lia]|].
  split; [reflexivity|]. split; [|split].
  - intros id Hid H0. rewrite ownerAt_insert.
    destruct (N.eqb_spec tokenId id) as [Eq|_]; [congruence|exact H0].
  - intros id Hid. lia.
  - intros reserve Hr. simpl length. rewrite N.mul_0_r, N.add_0_r.
    apply N.eq_le_incl.
    destruct s as [n c o]. apply massWith_transfer; assumption.
Qed.

Lemma weightOf_pos reserve s id :
  (forall i, 1 <= reserve i) -> 1 <= weightOf reserve s id.
Proof.
  intros Hr. unfold weightOf. destruct (cards s !! id) as [c|]; [|apply Hr].
  assert (2 ^ rarity c <> 0) by (apply N.pow_nonzero; lia). lia.
Qed.

Lemma pow_rarity_le_weight reserve s id :
  (forall i, 1 <= reserve i) -> 2 ^ rarity (lookupCard s id) <= weightOf reserve s id.
Proof.
  intros Hr. unfold weightOf, lookupCard.
  destruct (cards s !! id) as [c|]; simpl; [lia|apply Hr].
Qed.

Lemma rarityMass_massWith s : rarityMass s = massWith (fun _ => 1) s.
Proof.
  unfold rarityMass, massWith. apply totalOver_ext. intros i o _ _.
  unfold weightOf, lookupCard. destruct (cards s !! i); reflexivity.
Qed.

Lemma mass_after_mint x y m1 m0 k :
  x <= y -> y <= m1 + 32 * k -> m1 = m0 + 32 -> x <= m0 + 32 * (1 + k).
Proof. lia. Qed.

Lemma massWith_pending_mint reserve s n from s2 c k :
  ownerAt s n = 0 -> from <> 0 -> cards s !! n = None -> cards s2 !! n = None ->
  2 ^ rarity c <= 32 ->
  (forall r, (forall id, 1 <= r id) ->
     massWith r s2
     <= massWith r (mkState (nextId s + 1) (cards s) (<[n := from]> (owners s))) + 32 * k) ->
  (forall id, 1 <= reserve id) ->
  massWith reserve (mkState (nextId s2) (<[n := c]> (cards s2)) (owners s2))
  <= massWith reserve s + 32 * (1 + k).
Proof.
  intros O F C C2 Hc H Hr.
  set (res1 := fun id => if id =? n then 32 else reserve id).
  assert (Hr1 : forall id, 1 <= res1 id).
  { intros id. unfold res1. destruct (id =? n); [lia|apply Hr]. }
  specialize (H res1 Hr1).
  assert (A : massWith reserve (mkState (nextId s2) (<[n := c]> (cards s2)) (owners s2))
              <= massWith res1 s2).
  { unfold massWith. simpl_state. apply totalOver_mono. intros i o _ _.
    unfold weightOf. simpl_state. destruct (N.eq_dec n i) as [<-|Hne].
    - rewrite lookup_insert_eq, C2. unfold res1. rewrite N.eqb_refl. exact Hc.
    - rewrite lookup_insert_ne by assumption.
      destruct (cards s2 !! i); [lia|]. unfold res1.
      destruct (N.eqb_spec i n); [congruence|lia]. }
  assert (E : massWith res1 (mkState (nextId s + 1) (cards s) (<[n := from]> (owners s)))
              = massWith reserve s + 32).
  { unfold massWith. simpl_state.
    set (w1 := weightOf res1 (mkState (nextId s + 1) (cards s) (<[n := from]> (owners s)))).
    pose proof (totalOver_insert w1 (owners s) n from) as T.
    unfold ownerAt in O. rewrite O in T. apply N.eqb_neq in F. rewrite F in T.
    simpl in T. rewrite N.add_0_r in T.
    assert (Hn : w1 n = 32).
    { unfold w1, weightOf. simpl_state. rewrite C. unfold res1. rewrite N.eqb_refl.
      reflexivity. }
    assert (Hext : totalOver w1 (owners s) = totalOver (weightOf reserve s) (owners s)).
    { apply totalOver_ext. intros i o Hi Ho. unfold w1, weightOf. simpl_state.
      destruct (cards s !! i); [reflexivity|]. unfold res1.
      destruct (N.eqb_spec i n) as [->|]; [|reflexivity].
      rewrite Hi in O. simpl in O. contradiction. }
    rewrite T, Hn, Hext. reflexivity. }
  exact (mass_after_mint _ _ _ _ _ A H E).
Qed.

Lemma mass_after_upgrade x y m1 m0 k :
  x <= y -> y <= m1 + 32 * k -> m1 = m0 -> x <= m0 + 32 * (1 + k).
Proof. lia. Qed.

Lemma massWith_pending_upgrade reserve s n from id1 id2 s2 c k :
  ownerAt s id1 <> 0 -> ownerAt s id2 <> 0 -> id1 <> id2 -> id1 <> n -> id2 <> n ->
  ownerAt s n = 0 -> from <> 0 -> cards s !! n = None -> cards s2 !! n = None ->
  2 ^ rarity c <= 2 ^ rarity (lookupCard s id1) + 2 ^ rarity (lookupCard s id2) ->
  (forall r, (forall id, 1 <= r id) ->
     massWith r s2
     <= massWith r (mkState (nextId s + 1) (cards s)
                      (<[n := from]> (<[id2 := 0]> (<[id1 := 0]> (owners s))))) + 32 * k) ->
  (forall id, 1 <= reserve id) ->
  massWith reserve (mkState (nextId s2) (<[n := c]> (cards s2)) (owners s2))
  <= massWith reserve s + 32 * (1 + k).
Proof.
  intros O1 O2 D D1 D2 O F C C2 Hc H Hr.
  set (res1 := fun id => if id =? n then weightOf reserve s id1 + weightOf reserve s id2
                         else reserve id).
  assert (Hr1 : forall id, 1 <= res1 id).
  { intros id. unfold res1. destruct (id =? n); [|apply Hr].
    pose proof (weightOf_pos reserve s id1 Hr). lia. }
  specialize (H res1 Hr1).
  assert (A : massWith reserve (mkState (nextId s2) (<[n := c]> (cards s2)) (owners s2))
              <= massWith res1 s2).
  { unfold massWith. simpl_state. apply totalOver_mono. intros i o _ _.
    unfold weightOf at 1 2. simpl_state. destruct (N.eq_dec n i) as [<-|Hne].
    - rewrite lookup_insert_eq, C2. unfold res1. rewrite N.eqb_refl.
      pose proof (pow_rarity_le_weight reserve s id1 Hr).
      pose proof (pow_rarity_le_weight reserve s id2 Hr). lia.
    - rewrite lookup_insert_ne by assumption.
      destruct (cards s2 !! i); [lia|]. unfold res1.
      destruct (N.eqb_spec i n); [congruence|lia]. }
  assert (E : massWith res1 (mkState (nextId s + 1) (cards s)
                (<[n := from]> (<[id2 := 0]> (<[id1 := 0]> (owners s)))))
              = massWith reserve s).
  { unfold massWith. simpl_state.
    set (w1 := weightOf res1 (mkState (nextId s + 1) (cards s)
                 (<[n := from]> (<[id2 := 0]> (<[id1 := 0]> (owners s)))))).
    set (w := weightOf reserve s).
    set (m1 := <[id1 := 0]> (owners s)). set (m2 := <[id2 := 0]> m1).
    pose proof (totalOver_insert w (owners s) id1 0) as T1.
    fold (ownerAt s id1) in T1. fold m1 in T1.
    pose proof (totalOver_insert w m1 id2 0) as T2. fold m2 in T2.
    assert (Q2 : default 0 (m1 !! id2) = ownerAt s id2)
      by (unfold m1; rewrite lookup_insert_ne by assumption; reflexivity).
    rewrite Q2 in T2.
    pose proof (totalOver_insert w1 m2 n from) as T3.
    assert (Q3 : default 0 (m2 !! n) = 0).
    { unfold m2, m1. rewrite !lookup_insert_ne by congruence. exact O. }
    rewrite Q3 in T3.
    apply N.eqb_neq in O1, O2, F. rewrite O1 in T1. rewrite O2 in T2. rewrite F in T3.
    simpl in T1, T2, T3. rewrite N.add_0_r in T1, T2, T3.
    assert (Hn : w1 n = w id1 + w id2).
    { unfold w1, weightOf at 1. simpl_state. rewrite C. unfold res1. rewrite N.eqb_refl.
      reflexivity. }
    assert (Hext : totalOver w1 m2 = totalOver w m2).
    { apply totalOver_ext. intros i o Hi Ho. unfold w1, w, weightOf. simpl_state.
      destruct (cards s !! i); [reflexivity|]. unfold res1.
      destruct (N.eqb_spec i n) as [->|]; [|reflexivity].
      exfalso. rewrite Hi in Q3. simpl in Q3. contradiction. }
    rewrite T3, Hn, Hext.
    revert T1 T2. generalize (totalOver w m2), (totalOver w m1), (totalOver w (owners s)),
      (w id1), (w id2). intros. lia. }
  exact (mass_after_upgrade _ _ _ _ _ A H E).
Qed.

Lemma statsRange_minted r id :
  1 <= id ->
  statsRange id (mkCard (r mod 50 + 50) (r mod 40 + 30) (r mod 20 + 10) (r mod 5 + 1)).
Proof.
  intros Hid. destruct (statsWithin_minted r id Hid) as (P & D & S & R).
  unfold statsRange. cbn [power defense speed rarity] in *. lia.
Qed.

Lemma lookupCard_below s id0 id :
  cardsInRange s -> id0 < id ->
  power (lookupCard s id0) <= 79 + 10 * id /\
  defense (lookupCard s id0) <= 59 + 5 * id /\
  speed (lookupCard s id0) <= 19 + 5 * id /\
  rarity (lookupCard s id0) <= 3 + id.
Proof.
  intros B Hlt. unfold lookupCard. destruct (cards s !! id0) as [c|] eqn:E; simpl.
  - destruct (B id0 c E) as ((_ & P) & (_ & D) & (_ & S) & (_ & R)). lia.
  - lia.
Qed.

Lemma statsRange_fused c1 c2 id :
  power c1 <= 79 + 10 * id /\ defense c1 <= 59 + 5 * id /\
  speed c1 <= 19 + 5 * id /\ rarity c1 <= 3 + id ->
  power c2 <= 79 + 10 * id /\ defense c2 <= 59 + 5 * id /\
  speed c2 <= 19 + 5 * id /\ rarity c2 <= 3 + id ->
  statsRange id (mkCard ((power c1 + power c2) / 2 + 10)
                        ((defense c1 + defense c2) / 2 + 5)
                        ((speed c1 + speed c2) / 2 + 5)
                        ((rarity c1 + rarity c2) / 2 + 1)).
Proof.
  intros (P1 & D1 & S1 & R1) (P2 & D2 & S2 & R2).
  unfold statsRange. cbn [power defense speed rarity].
  destruct (half_sum_bounds (power c1) (power c2) 0 (79 + 10 * id)) as [_ Pb]; [lia ..|].
  destruct (half_sum_bounds (defense c1) (defense c2) 0 (59 + 5 * id)) as [_ Db]; [lia ..|].
  destruct (half_sum_bounds (speed c1) (speed c2) 0 (19 + 5 * id)) as [_ Sb]; [lia ..|].
  destruct (half_sum_bounds (rarity c1) (rarity c2) 0 (3 + id)) as [_ Rb]; [lia ..|].
  revert Pb Db Sb Rb.
  generalize ((power c1 + power c2) / 2), ((defense c1 + defense c2) / 2),
    ((speed c1 + speed c2) / 2), ((rarity c1 + rarity c2) / 2).
  intros p d sp ra Pb Db Sb Rb. lia.
Qed.

Lemma fusedCard_inv c1 c2 s c s' :
  fusedCard c1 c2 s = Ok (c, s') ->
  c = mkCard ((power c1 + power c2) / 2 + 10) ((defense c1 + defense c2) / 2 + 5)
             ((speed c1 + speed c2) / 2 + 5) ((rarity c1 + rarity c2) / 2 + 1).
Proof.
  rewrite fusedCard_spec. destruct (_ && _); [|discriminate].
  intros H. injection H as <- _. reflexivity.
Qed.

Lemma wf_pending s (owners' : gmap N address) :
  wf s ->
  (forall id, default 0 (owners' !! id) <> 0 -> id = nextId s \/ ownerAt s id <> 0) ->
  wf (mkState (nextId s + 1) (cards s) owners').
Proof.
  intros [W1 W] H. split; simpl_state; [lia|].
  intros id [Hc|Ho].
  - specialize (W id (or_introl Hc)). lia.
  - destruct (H id Ho) as [->|Ho']; [lia|].
    specialize (W id (or_intror Ho')). lia.
Qed.

Lemma wf_write_card s n c :
  wf s -> 1 <= n < nextId s ->
  wf (mkState (nextId s) (<[n := c]> (cards s)) (owners s)).
Proof.
  intros [W1 W] Hn. split; simpl_state; [lia|].
  intros id [Hc|Ho].
  - destruct (N.eq_dec n id) as [<-|Hne]; [lia|].
    rewrite lookup_insert_ne in Hc by assumption. exact (W id (or_introl Hc)).
  - exact (W id (or_intror Ho)).
Qed.

Lemma cardsInRange_write_card s n c :
  cardsInRange s -> statsRange n c ->
  cardsInRange (mkState (nextId s) (<[n := c]> (cards s)) (owners s)).
Proof.
  intros B Hc id c0 H. simpl_state. destruct (N.eq_dec n id) as [<-|Hne].
  - rewrite lookup_insert_eq in H. injection H as <-. exact Hc.
  - rewrite lookup_insert_ne in H by assumption. exact (B id c0 H).
Qed.

(** The state after the hook of a call that allocated [n] in [s], once the
    card of [n] is written. *)
Lemma extends_pending s s1 nested s2 c :
  wf s -> nextId s1 = nextId s + 1 -> cards s1 = cards s ->
  (forall id, id < nextId s -> ownerAt s id = 0 -> ownerAt s1 id = 0) ->
  extends s1 nested s2 ->
  (forall reserve, (forall id, 1 <= reserve id) ->
     massWith reserve (mkState (nextId s2) (<[nextId s := c]> (cards s2)) (owners s2))
     <= massWith reserve s + 32 * (1 + N.of_nat (length nested))) ->
  extends s (nextId s :: nested)
    (mkState (nextId s2) (<[nextId s := c]> (cards s2)) (owners s2)).
Proof.
  intros W N1 C1 O1 (N2 & S2 & M2 & C2 & O2 & D2 & _) Hm.
  unfold extends. simpl_state. simpl length. rewrite Nat2N.inj_succ.
  split; [lia|]. split; [|split; [|split; [|split; [|split]]]].
  - constructor; [exact S2|]. apply Forall_forall. intros y Hy. apply M2 in Hy. lia.
  - intros id. rewrite elem_of_cons, M2. lia.
  - intros id Hid. rewrite lookup_insert_ne by lia. rewrite C2 by lia.
    rewrite C1. reflexivity.
  - intros id Hid H0. change (ownerAt s2 id = 0). apply O2; [lia|]. apply O1; assumption.
  - intros id Hid. destruct (N.eq_dec (nextId s) id) as [<-|Hne].
    + rewrite lookup_insert_eq. eauto.
    + rewrite lookup_insert_ne by assumption. apply D2. lia.
  - intros reserve Hr. specialize (Hm reserve Hr).
    replace (N.succ (N.of_nat (length nested))) with (1 + N.of_nat (length nested)) by lia.
    exact Hm.
Qed.

Lemma orderly_mintCardWith e hook outcome :
  orderly hook -> orderly (mintCardWith e hook outcome).
Proof.
  intros Hh s ids s' W B H.
  apply mintCardWith_inv in H as (L & S0 & O & _ & nested & s2 & Hk & -> & ->).
  set (s1 := mkState (nextId s + 1) (cards s) (<[nextId s := sender e]> (owners s))) in Hk.
  assert (W1 : wf s1).
  { apply wf_pending; [exact W|]. intros id Ho.
    destruct (N.eq_dec (nextId s) id) as [<-|Hne]; [left; reflexivity|right].
    rewrite lookup_insert_ne in Ho by assumption. exact Ho. }
  destruct (Hh s1 nested s2 W1 B Hk) as (W2 & B2 & X2).
  pose proof X2 as (N2 & _ & _ & C2 & _ & _ & M2).
  simpl_state.
  assert (Hn : 1 <= nextId s) by (destruct W; assumption).
  assert (Cn : cards s !! nextId s = None) by (apply wf_no_card; [exact W|right; lia]).
  assert (Cn2 : cards s2 !! nextId s = None).
  { rewrite C2 by (simpl; lia). exact Cn. }
  split; [apply wf_write_card; [exact W2|lia]|].
  split; [apply cardsInRange_write_card; [exact B2|apply statsRange_minted; exact Hn]|].
  apply (extends_pending s s1 nested s2); try assumption; try reflexivity.
  - intros id Hid H0. unfold s1. rewrite ownerAt_insert.
    destruct (N.eqb_spec (nextId s) id); [lia|exact H0].
  - intros reserve Hr.
    apply (massWith_pending_mint reserve s (nextId s) (sender e) s2); try assumption.
    cbn [rarity].
    assert (Hlt : mintRand e (nextId s) mod 5 + 1 <= 5).
    { assert (mintRand e (nextId s) mod 5 < 5) by (apply N.mod_lt; lia). lia. }
    change 32 with (2 ^ 5). apply N.pow_le_mono_r; [lia|exact Hlt].
Qed.

Lemma orderly_upgradeWith e id1 id2 hook outcome :
  orderly hook -> orderly (upgradeWith e id1 id2 hook outcome).
Proof.
  intros Hh s ids s' W B H.
  apply upgradeWith_inv in H
    as (O1 & O2 & S0 & D & L & _ & _ & nested & s2 & c & Hk & FC & -> & ->).
  set (s1 := mkState (nextId s + 1) (cards s)
               (<[nextId s := sender e]> (<[id2 := 0]> (<[id1 := 0]> (owners s))))) in Hk.
  assert (E1 : ownerAt s id1 <> 0) by congruence.
  assert (E2 : ownerAt s id2 <> 0) by congruence.
  assert (Hn : 1 <= nextId s) by (destruct W; assumption).
  assert (L1 : 1 <= id1 < nextId s) by (destruct W as [_ Wb]; apply Wb; right; exact E1).
  assert (L2 : 1 <= id2 < nextId s) by (destruct W as [_ Wb]; apply Wb; right; exact E2).
  assert (W1 : wf s1).
  { apply wf_pending; [exact W|]. intros id Ho.
    destruct (N.eq_dec (nextId s) id) as [<-|Hne]; [left; reflexivity|right].
    rewrite lookup_insert_ne in Ho by assumption.
    destruct (N.eq_dec id2 id) as [<-|Hne2];
      [rewrite lookup_insert_eq in Ho; contradiction|].
    rewrite lookup_insert_ne in Ho by assumption.
    destruct (N.eq_dec id1 id) as [<-|Hne1];
      [rewrite lookup_insert_eq in Ho; contradiction|].
    rewrite lookup_insert_ne in Ho by assumption. exact Ho. }
  destruct (Hh s1 nested s2 W1 B Hk) as (W2 & B2 & X2).
  pose proof X2 as (N2 & _ & _ & C2 & _ & _ & M2).
  simpl_state.
  assert (On : ownerAt s (nextId s) = 0) by (apply wf_unowned; [exact W|lia]).
  assert (Cn : cards s !! nextId s = None) by (apply wf_no_card; [exact W|right; lia]).
  assert (Cn2 : cards s2 !! nextId s = None).
  { rewrite C2 by (simpl; lia). exact Cn. }
  assert (K1 : lookupCard s2 id1 = lookupCard s id1).
  { unfold lookupCard. rewrite C2 by (simpl; lia). reflexivity. }
  assert (K2 : lookupCard s2 id2 = lookupCard s id2).
  { unfold lookupCard. rewrite C2 by (simpl; lia). reflexivity. }
  rewrite K1, K2 in FC. apply fusedCard_inv in FC. subst c.
  split; [apply wf_write_card; [exact W2|lia]|].
  split.
  { apply cardsInRange_write_card; [exact B2|].
    apply statsRange_fused; apply lookupCard_below; assumption || lia. }
  apply (extends_pending s s1 nested s2); try assumption; try reflexivity.
  - intros id Hid H0. unfold s1. rewrite !ownerAt_insert.
    destruct (N.eqb_spec (nextId s) id); [lia|].
    destruct (id2 =? id); [reflexivity|]. destruct (id1 =? id); [reflexivity|exact H0].
  - intros reserve Hr.
    apply (massWith_pending_upgrade reserve s (nextId s) (sender e) id1 id2 s2);
      try assumption; try lia.
    cbn [rarity]. apply pow2_half_sum.
Qed.

Lemma orderly_execAll timestamp hook :
  Forall (fun t => orderly (exec timestamp t)) hook -> orderly (execAll timestamp hook).
Proof.
  induction 1 as [|t l Ht _ IH]; simpl; [apply orderly_ret_nil|].
  apply orderly_seq; [apply orderly_attempt; exact Ht|exact IH].
Qed.

Lemma orderly_exec timestamp t : orderly (exec timestamp t).
Proof.
  induction t as [from call hook outcome IH] using Tx_nested_ind.
  rewrite exec_unfold. apply orderly_execAll in IH.
  destruct call as [|id1 id2|f to tokenId].
  - apply orderly_mintCardWith. exact IH.
  - apply orderly_upgradeWith. exact IH.
  - apply orderly_transferFrom.
Qed.

Lemma wf_cardsInRange_initState : wf initState /\ cardsInRange initState.
Proof.
  split; [apply wf_initState|].
  intros id c H. simpl in H. rewrite lookup_empty in H. discriminate.
Qed.

Lemma runTxs_extends txs :
  forall s s' ids, wf s -> cardsInRange s -> runTxs txs s = (s', ids) ->
                   wf s' /\ cardsInRange s' /\ extends s ids s'.
Proof.
  induction txs as [|[timestamp t] rest IH]; intros s s' ids W B R; simpl in R.
  - injection R as <- <-. split; [assumption|]. split; [assumption|apply extends_refl].
  - destruct (exec timestamp t s) as [[a s1]|err] eqn:E.
    + destruct (runTxs rest s1) as [s2 b] eqn:R2. injection R as <- <-.
      destruct (orderly_exec timestamp t s a s1 W B E) as (W1 & B1 & X1).
      destruct (IH s1 s2 b W1 B1 R2) as (W2 & B2 & X2).
      split; [assumption|]. split; [assumption|].
      exact (extends_trans s a s1 b s2 X1 X2).
    + exact (IH s s' ids W B R).
Qed.

Lemma runTxs_initState txs s ids :
  runTxs txs initState = (s, ids) ->
  wf s /\ cardsInRange s /\ extends initState ids s.
Proof.
  destruct wf_cardsInRange_initState as [W B]. exact (runTxs_extends txs _ _ _ W B).
Qed.

(** ** The calls without call-backs among the calls with a hook

    [mintCard], [upgrade] and [run] above are the calls below with a hook
    that calls nothing and ends as the receiver check tells. *)

Ltac unfold_monad :=
  unfold _safeMintWith, checkOnERC721ReceivedWith, _mint, _burn, ownerOf, _update;
  unfold _ownerOf, setOwner, postIncrementNextId, readNextId, writeNextId, add256, require,
    readCard, writeCard, bind, ret, revert;
  cbv beta iota zeta.

Lemma mintCard_as_mintCardWith e s :
  mintCard e s =
  (mintCardWith e (ret [])
     (if checkOnERC721Received (sender e) (sender e) (nextId s)
      then HookAccepts else HookRejects) >> ret tt) s.
Proof.
  rewrite mintCard_spec. unfold mintCardWith. unfold_monad. simpl_state.
  destruct (nextId s + 1 <? UINT256_LIMIT); cbv beta iota; [|reflexivity].
  destruct (sender e =? 0); cbv beta iota; [reflexivity|].
  rewrite ownerAt_owners.
  destruct (ownerAt s (nextId s) =? 0); cbv beta iota; [|reflexivity].
  destruct (checkOnERC721Received _ _ _); cbv beta iota; [|reflexivity].
  rewrite mintedCard_spec. reflexivity.
Qed.

Lemma upgrade_as_upgradeWith e id1 id2 s :
  upgrade e id1 id2 s =
  (upgradeWith e id1 id2 (ret [])
     (if checkOnERC721Received (sender e) (sender e) (nextId s)
      then HookAccepts else HookRejects) >> ret tt) s.
Proof.
  rewrite upgrade_spec. unfold upgradeWith. unfold_monad. cbn [nextId cards owners].
  destruct (ownerAt s id1 =? 0) eqn:E1; cbv beta iota; [reflexivity|].
  destruct (ownerAt s id1 =? sender e) eqn:O1; cbv beta iota; simpl negb; cbv iota;
    [|reflexivity].
  destruct (ownerAt s id2 =? 0) eqn:E2; cbv beta iota; [reflexivity|].
  destruct (ownerAt s id2 =? sender e) eqn:O2; cbv beta iota; simpl negb; cbv iota;
    [|reflexivity].
  rewrite E1. cbv beta iota. rewrite ownerAt_insert, ownerAt_owners.
  destruct (id1 =? id2) eqn:D; cbv beta iota; [reflexivity|].
  rewrite E2. cbv beta iota. cbn [nextId cards owners].
  destruct (nextId s + 1 <? UINT256_LIMIT) eqn:L; cbv beta iota; simpl negb; cbv iota;
    [|reflexivity].
  assert (S0 : (sender e =? 0) = false).
  { apply N.eqb_eq in O1. rewrite <- O1. exact E1. }
  rewrite S0. cbv beta iota. cbn [nextId cards owners].
  rewrite !ownerAt_insert, ownerAt_owners.
  destruct (id2 =? nextId s) eqn:D2; [|destruct (id1 =? nextId s) eqn:D1];
    simpl orb; cbv beta iota; simpl negb; cbv iota.
  3: destruct (ownerAt s (nextId s) =? 0); simpl negb; cbv iota; [|reflexivity].
  all: rewrite ?N.eqb_refl; cbv iota.
  all: destruct (checkOnERC721Received _ _ _); simpl negb; cbv beta iota; [|reflexivity].
  all: unfold lookupCard; cbn [nextId cards owners].
  all: rewrite (fusedCard_spec _ _ (mkState _ _ _)), (fusedCard_spec _ _ s).
  all: destruct (_ && _); reflexivity.
Qed.

Lemma exec_plain e call s :
  (forall operator to tokenId, checkOnERC721Received operator to tokenId = true) ->
  exec (timestamp e) (tx (sender e) call [] HookAccepts) s =
  match perform call e s with
  | Ok (_, s') => Ok (match call with TransferFrom _ _ _ => [] | _ => [nextId s] end, s')
  | Revert err => Revert err
  end.
Proof.
  intros Acc. rewrite exec_unfold. cbn [execAll].
  replace (mkEnv (timestamp e) (sender e)) with e by (destruct e; reflexivity).
  destruct call as [|id1 id2|f to tokenId]; simpl perform.
  - rewrite mintCard_as_mintCardWith, Acc. unfold bind at 1.
    destruct (mintCardWith e (ret []) HookAccepts s) as [[ids s']|err] eqn:M;
      [|reflexivity].
    apply mintCardWith_inv in M as (_ & _ & _ & _ & nested & s2 & Hk & -> & ->).
    injection Hk as <- <-. reflexivity.
  - rewrite upgrade_as_upgradeWith, Acc. unfold bind at 1.
    destruct (upgradeWith e id1 id2 (ret []) HookAccepts s) as [[ids s']|err] eqn:U;
      [|reflexivity].
    apply upgradeWith_inv in U
      as (_ & _ & _ & _ & _ & _ & _ & nested & s2 & c & Hk & _ & -> & ->).
    injection Hk as <- <-. reflexivity.
  - unfold bind, ret.
    destruct (transferFrom e f to tokenId s) as [[[] s']|err]; reflexivity.
Qed.

Lemma run_plain calls :
  (forall operator to tokenId, checkOnERC721Received operator to tokenId = true) ->
  forall s, wf s -> run calls s = runTxs (map plain calls) s.
Proof.
  intros Acc. induction calls as [|[e call] rest IH]; intros s W; [reflexivity|].
  change (runTxs (map plain ((e, call) :: rest)) s)
    with (match exec (timestamp e) (tx (sender e) call [] HookAccepts) s with
          | Ok (a, s1) => let '(s2, b) := runTxs (map plain rest) s1 in (s2, a ++ b)
          | Revert _ => runTxs (map plain rest) s
          end).
  rewrite (exec_plain e call s Acc). cbn [run]. unfold step, transact. cbn [fst snd].
  destruct (perform call e s) as [[[] s1]|err] eqn:P.
  - rewrite (IH s1 (wf_perform call e s s1 W P)).
    destruct (runTxs (map plain rest) s1) as [s2 ids].
    destruct call as [|id1 id2|f to tokenId]; simpl in P.
    + rewrite (created_mintCard e s s1 W P). reflexivity.
    + rewrite (created_upgrade e id1 id2 s s1 W P). reflexivity.
    + rewrite (created_transferFrom e f to tokenId s s1 P). reflexivity.
  - rewrite (IH s W). rewrite (created_none s s) by auto.
    destruct (runTxs (map plain rest) s) as [s2 ids]. reflexivity.
Qed.

(** ** Properties of the contract under receiver hooks *)

Lemma upgradeWith_nonexistent e id1 id2 hook outcome s :
  ownerAt s id1 = 0 ->
  upgradeWith e id1 id2 hook outcome s = Revert (ERC721NonexistentToken id1).
Proof.
  intros H. unfold upgradeWith. unfold bind at 1. rewrite ownerOf_spec, H. reflexivity.
Qed.

Lemma not_allocated_no_card s ids s' id :
  wf s -> wf s' -> extends s ids s' -> id ∉ ids -> cards s' !! id = cards s !! id.
Proof.
  intros W W' (_ & _ & M & C & _) Hout.
  destruct (N.lt_ge_cases id (nextId s)) as [Hlt|Hge]; [exact (C id Hlt)|].
  assert (Hge' : nextId s' <= id).
  { destruct (N.lt_ge_cases id (nextId s')) as [Hlt'|]; [|assumption].
    exfalso. apply Hout. apply M. lia. }
  rewrite (wf_no_card s id W), (wf_no_card s' id W'); auto.
Qed.

Lemma not_allocated_unowned s ids s' id :
  wf s' -> extends s ids s' -> id ∉ ids -> ownerAt s id = 0 -> ownerAt s' id = 0.
Proof.
  intros W' (_ & _ & M & _ & O & _) Hout H0.
  destruct (N.lt_ge_cases id (nextId s)) as [Hlt|Hge]; [exact (O id Hlt H0)|].
  apply wf_unowned; [exact W'|].
  destruct (N.lt_ge_cases id (nextId s')) as [Hlt'|]; [|assumption].
  exfalso. apply Hout. apply M. lia.
Qed.


Lemma exec_upgrade_burns timestamp from id1 id2 hook outcome s new s' :
  wf s -> cardsInRange s ->
  exec timestamp (tx from (Upgrade id1 id2) hook outcome) s = Ok (new, s') ->
  (id1 < nextId s /\ id2 < nextId s) /\
  (wf s' /\ cardsInRange s' /\ extends s new s') /\
  ownerAt s' id1 = 0 /\ ownerAt s' id2 = 0.
Proof.
  intros W B E.
  pose proof (orderly_exec timestamp _ s new s' W B E) as X.
  rewrite exec_unfold in E.
  apply upgradeWith_inv in E
    as (O1 & O2 & S0 & D & _ & _ & _ & nested & s2 & c & Hk & _ & _ & ->).
  cbn [sender] in *.
  assert (L1 : 1 <= id1 < nextId s)
    by (destruct W as [_ Wb]; apply Wb; right; congruence).
  assert (L2 : 1 <= id2 < nextId s)
    by (destruct W as [_ Wb]; apply Wb; right; congruence).
  split; [lia|]. split; [exact X|].
  set (s1 := mkState (nextId s + 1) (cards s)
               (<[nextId s := from]> (<[id2 := 0]> (<[id1 := 0]> (owners s))))) in Hk.
  assert (W1 : wf s1).
  { apply wf_pending; [exact W|]. intros id Ho.
    destruct (N.eq_dec (nextId s) id) as [<-|Hne]; [left; reflexivity|right].
    rewrite lookup_insert_ne in Ho by assumption.
    destruct (N.eq_dec id2 id) as [<-|Hne2];
      [rewrite lookup_insert_eq in Ho; contradiction|].
    rewrite lookup_insert_ne in Ho by assumption.
    destruct (N.eq_dec id1 id) as [<-|Hne1];
      [rewrite lookup_insert_eq in Ho; contradiction|].
    rewrite lookup_insert_ne in Ho by assumption. exact Ho. }
  destruct (orderly_execAll timestamp hook
              (proj2 (Forall_forall _ _) (fun t _ => orderly_exec timestamp t))
              s1 nested s2 W1 B Hk) as (_ & _ & (_ & _ & _ & _ & O & _)).
  split; change (ownerAt s2 ?i) with (ownerAt s2 i); apply O; simpl_state; try lia.
  - unfold s1. rewrite !ownerAt_insert.
    destruct (N.eqb_spec (nextId s) id1); [lia|].
    destruct (N.eqb_spec id2 id1); [reflexivity|]. rewrite N.eqb_refl. reflexivity.
  - unfold s1. rewrite !ownerAt_insert.
    destruct (N.eqb_spec (nextId s) id2); [lia|]. rewrite N.eqb_refl. reflexivity.
Qed.


(** C7. From the initial state, the ids that a sequence of transactions
    allocates, calls made from receiver hooks included, are, in order,
    strictly increasing, hence distinct, and are exactly the ids from 1 below
    the counter.  In the state reached, a successful [mintCard] and a
    successful [upgrade] each take [nextId] for their token and store its
    successor before the hook runs; the ids allocated during the call are
    that id followed by those of the hook's calls, the counter advances by
    their number, by one when the hook makes no call, and the inputs of the
    [upgrade] are smaller than the id it takes. *)
Theorem ids_strictly_increasing txs s ids :
  runTxs txs initState = (s, ids) ->
  StronglySorted N.lt ids /\ NoDup ids /\
  (forall id, id ∈ ids <-> 1 <= id < nextId s) /\
  (forall timestamp from hook outcome new s',
     exec timestamp (tx from MintCard hook outcome) s = Ok (new, s') ->
     (exists nested s2,
        execAll timestamp hook
          (mkState (nextId s + 1) (cards s) (<[nextId s := from]> (owners s)))
        = Ok (nested, s2) /\
        new = nextId s :: nested /\ nextId s' = nextId s2) /\
     StronglySorted N.lt new /\
     nextId s' = nextId s + N.of_nat (length new) /\
     (hook = [] -> new = [nextId s] /\ nextId s' = nextId s + 1)) /\
  (forall timestamp from id1 id2 hook outcome new s',
     exec timestamp (tx from (Upgrade id1 id2) hook outcome) s = Ok (new, s') ->
     (exists nested s2,
        execAll timestamp hook
          (mkState (nextId s + 1) (cards s)
             (<[nextId s := from]> (<[id2 := 0]> (<[id1 := 0]> (owners s)))))
        = Ok (nested, s2) /\
        new = nextId s :: nested /\ nextId s' = nextId s2) /\
     StronglySorted N.lt new /\
     nextId s' = nextId s + N.of_nat (length new) /\
     (hook = [] -> new = [nextId s] /\ nextId s' = nextId s + 1) /\
     id1 < nextId s /\ id2 < nextId s).
Proof.
  intros R. destruct (runTxs_initState txs s ids R) as (W & B & (_ & S & M & _)).
  split; [assumption|]. split; [apply StronglySorted_lt_NoDup; assumption|].
  split; [exact M|]. split.
  - intros timestamp from hook outcome new s' E.
    destruct (orderly_exec timestamp _ s new s' W B E) as (_ & _ & (N' & S' & _)).
    rewrite exec_unfold in E.
    apply mintCardWith_inv in E as (_ & _ & _ & _ & nested & s2 & Hk & -> & ->).
    cbn [sender] in Hk.
    split; [exists nested, s2; repeat split; exact Hk|].
    split; [exact S'|]. split; [exact N'|].
    intros ->. simpl in Hk. injection Hk as <- <-. split; reflexivity.
  - intros timestamp from id1 id2 hook outcome new s' E.
    destruct (exec_upgrade_burns _ _ _ _ _ _ _ _ _ W B E)
      as ((L1 & L2) & (_ & _ & (N' & S' & _)) & _).
    rewrite exec_unfold in E.
    apply upgradeWith_inv in E
      as (_ & _ & _ & _ & _ & _ & _ & nested & s2 & c & Hk & _ & -> & ->).
    cbn [sender] in Hk.
    split; [exists nested, s2; repeat split; exact Hk|].
    split; [exact S'|]. split; [exact N'|].
    split; [|split; assumption].
    intros ->. simpl in Hk. injection Hk as <- <-. split; reflexivity.
Qed.

(** X6. The counter counts the ids ever allocated: after any sequence of
    transactions from the initial state, whatever their receiver hooks call,
    [nextId] is one more than the number of ids allocated, so the ids in use
    are 1 .. nextId - 1 and id 0 is never used. *)
Theorem nextId_counts_created txs s ids :
  runTxs txs initState = (s, ids) ->
  nextId s = 1 + N.of_nat (length ids) /\
  ownerAt s 0 = 0 /\ getCard 0 s = Ok (zeroCard, s).
Proof.
  intros R. destruct (runTxs_initState txs s ids R) as (W & _ & (C & _)).
  split; [exact C|]. split.
  - destruct (N.eq_dec (ownerAt s 0) 0) as [E|E]; [exact E|].
    destruct W as [_ Wb]. specialize (Wb 0 (or_intror E)). lia.
  - unfold getCard, readCard, lookupCard.
    rewrite (wf_no_card s 0 W); [reflexivity|]. left. reflexivity.
Qed.


(** X11. A successful [mintCard] changes the card of no id but those
    allocated during the call and brings no other token into existence,
    whatever its receiver hook calls.  When the hook makes no call, the call
    allocates [nextId] alone, gives that token to the sender and leaves the
    owner of every other token as it was. *)
Theorem mintCard_frame txs s ids timestamp from hook outcome new s' :
  runTxs txs initState = (s, ids) ->
  exec timestamp (tx from MintCard hook outcome) s = Ok (new, s') ->
  (forall id, id ∉ new -> lookupCard s' id = lookupCard s id) /\
  (forall id, id ∉ new -> ownerAt s id = 0 -> ownerAt s' id = 0) /\
  (hook = [] ->
   new = [nextId s] /\ ownerAt s' (nextId s) = from /\
   forall id, id <> nextId s -> ownerAt s' id = ownerAt s id).
Proof.
  intros R E. destruct (runTxs_initState txs s ids R) as (W & B & _).
  destruct (orderly_exec timestamp _ s new s' W B E) as (W' & _ & X).
  split; [|split].
  - intros id Hout. unfold lookupCard.
    rewrite (not_allocated_no_card s new s' id W W' X Hout). reflexivity.
  - intros id Hout. exact (not_allocated_unowned s new s' id W' X Hout).
  - intros ->. rewrite exec_unfold in E.
    apply mintCardWith_inv in E as (_ & _ & _ & _ & nested & s2 & Hk & -> & ->).
    simpl in Hk. injection Hk as <- <-. cbn [sender].
    split; [reflexivity|]. split.
    + rewrite ownerAt_owners, ownerAt_insert, N.eqb_refl. reflexivity.
    + intros id Hne. rewrite ownerAt_owners, ownerAt_insert.
      destruct (N.eqb_spec (nextId s) id); [congruence|]. reflexivity.
Qed.

(** X12. In a state reached from the initial one, a successful [upgrade]
    leaves both inputs without owner, changes the card of no id but those
    allocated during the call and brings no other token into existence,
    whatever its receiver hook calls; the same call made again reverts.
    When the hook makes no call, the call allocates [nextId] alone, gives
    that token to the caller and leaves the owner of every token other than
    the three as it was. *)
Theorem upgrade_frame txs s ids timestamp from id1 id2 hook outcome new s' :
  runTxs txs initState = (s, ids) ->
  exec timestamp (tx from (Upgrade id1 id2) hook outcome) s = Ok (new, s') ->
  ownerAt s' id1 = 0 /\ ownerAt s' id2 = 0 /\
  (forall id, id ∉ new -> lookupCard s' id = lookupCard s id) /\
  (forall id, id ∉ new -> ownerAt s id = 0 -> ownerAt s' id = 0) /\
  (forall timestamp' hook' outcome',
     exec timestamp' (tx from (Upgrade id1 id2) hook' outcome') s'
     = Revert (ERC721NonexistentToken id1)) /\
  (hook = [] ->
   new = [nextId s] /\ ownerAt s' (nextId s) = from /\
   forall id, id <> id1 -> id <> id2 -> id <> nextId s -> ownerAt s' id = ownerAt s id).
Proof.
  intros R E. destruct (runTxs_initState txs s ids R) as (W & B & _).
  destruct (exec_upgrade_burns _ _ _ _ _ _ _ _ _ W B E)
    as (_ & (W' & _ & X) & H1 & H2).
  split; [exact H1|]. split; [exact H2|]. split; [|split; [|split]].
  - intros id Hout. unfold lookupCard.
    rewrite (not_allocated_no_card s new s' id W W' X Hout). reflexivity.
  - intros id Hout. exact (not_allocated_unowned s new s' id W' X Hout).
  - intros timestamp' hook' outcome'. rewrite exec_unfold.
    apply upgradeWith_nonexistent. exact H1.
  - intros ->. rewrite exec_unfold in E.
    apply upgradeWith_inv in E
      as (_ & _ & _ & _ & _ & _ & _ & nested & s2 & c & Hk & _ & -> & ->).
    simpl in Hk. injection Hk as <- <-. cbn [sender].
    split; [reflexivity|]. split.
    + rewrite ownerAt_owners, ownerAt_insert, N.eqb_refl. reflexivity.
    + intros id N1 N2 N3. rewrite ownerAt_owners, !ownerAt_insert.
      destruct (N.eqb_spec (nextId s) id); [congruence|].
      destruct (N.eqb_spec id2 id); [congruence|].
      destruct (N.eqb_spec id1 id); [congruence|]. reflexivity.
Qed.

(** X19. Rarity is paid for in ids: in a state reached from the initial
    one, whatever the receiver hooks called, the values 2^rarity of the cards
    of the existing tokens add up to at most 32 for every id allocated.  So
    an existing card of rarity r needs 2^(r - 5) allocated ids. *)
Theorem rarity_mass_bounded txs s ids :
  runTxs txs initState = (s, ids) ->
  rarityMass s <= 32 * N.of_nat (length ids) /\
  (forall id, ownerAt s id <> 0 ->
     2 ^ rarity (lookupCard s id) <= 32 * N.of_nat (length ids)).
Proof.
  intros R. destruct (runTxs_initState txs s ids R) as (_ & _ & (_ & _ & _ & _ & _ & _ & M)).
  assert (Hm : rarityMass s <= 32 * N.of_nat (length ids)).
  { rewrite rarityMass_massWith.
    specialize (M (fun _ => 1) (fun _ => N.le_refl 1)).
    assert (Z : massWith (fun _ => 1) initState = 0)
      by (unfold massWith; simpl; apply totalOver_empty).
    rewrite Z in M. exact M. }
  split; [exact Hm|].
  intros id Hex. apply N.le_trans with (rarityMass s); [|exact Hm].
  unfold rarityMass.
  apply (totalOver_member (fun id => 2 ^ rarity (lookupCard s id))). exact Hex.
Qed.

End Contract.


(** ** The battle view *)

Lemma existsb_eqb_In (id : string) (l : list string) :
  existsb (String.eqb id) l = true <-> In id l.
Proof.
  rewrite existsb_exists. split.
  - intros (x & Hx & E). apply String.eqb_eq in E. subst. assumption.
  - intros H. exists id. split; [assumption|apply String.eqb_refl].
Qed.

Lemma filter_out_absent (id : string) (l : list string) :
  ~ In id l -> List.filter (fun x => negb (String.eqb x id)) l = l.
Proof.
  induction l as [|a l IH]; intros H; simpl; [reflexivity|].
  destruct (String.eqb_spec a id) as [->|Hne]; simpl.
  - exfalso. apply H. left. reflexivity.
  - rewrite IH; [reflexivity|]. intros Hin. apply H. right. assumption.
Qed.

Lemma toggle_keeps_selection_valid userCards id prev :
  (length prev <= 3)%nat -> NoDup prev ->
  (forall x, In x prev -> exists card, In card userCards /\ Frontend.tokenId card = x) ->
  let next := fst (Frontend.toggleCardSelection userCards id prev) in
  (length next <= 3)%nat /\ NoDup next /\
  (forall x, In x next -> exists card, In card userCards /\ Frontend.tokenId card = x).
Proof.
  intros Hlen Hnd Hsub. unfold Frontend.toggleCardSelection.
  destruct (existsb (fun card => String.eqb (Frontend.tokenId card) id) userCards)
    eqn:Hex; cbn [negb fst]; [|auto].
  destruct (existsb (String.eqb id) prev) eqn:Hsel; cbn [fst].
  - split; [|split].
    + pose proof (List.filter_length_le (fun x => negb (String.eqb x id)) prev). lia.
    + apply NoDup_ListNoDup, List.NoDup_filter, NoDup_ListNoDup. assumption.
    + intros x Hx. apply filter_In in Hx as [Hx _]. auto.
  - destruct (Nat.leb_spec 3 (length prev)); cbn [fst]; [auto|].
    split; [|split].
    + rewrite length_app. simpl. lia.
    + apply NoDup_app. split; [assumption|]. split.
      * intros x Hx Hin. apply list_elem_of_singleton in Hin. subst x.
        apply list_elem_of_In, existsb_eqb_In in Hx. congruence.
      * apply NoDup_singleton.
    + intros x Hx. apply in_app_or in Hx as [Hx|[<-|[]]]; [auto|].
      apply existsb_exists in Hex as (card & Hc & E).
      apply String.eqb_eq in E. eauto.
Qed.

(** X15. Starting from no selection, whatever cards are clicked and in
    whatever order, [toggleCardSelection] keeps at most 3 cards selected,
    never selects a card twice, and selects only ids found in
    [userCards]. *)
Theorem selection_stays_valid userCards clicks :
  let selected := Frontend.toggleAll userCards clicks [] in
  (length selected <= 3)%nat /\ NoDup selected /\
  (forall x, In x selected ->
     exists card, In card userCards /\ Frontend.tokenId card = x).
Proof.
  assert (G : forall clicks prev,
    (length prev <= 3)%nat -> NoDup prev ->
    (forall x, In x prev -> exists card, In card userCards /\ Frontend.tokenId card = x) ->
    let selected := Frontend.toggleAll userCards clicks prev in
    (length selected <= 3)%nat /\ NoDup selected /\
    (forall x, In x selected ->
       exists card, In card userCards /\ Frontend.tokenId card = x)).
  { clear clicks. induction clicks as [|id rest IH]; intros prev Hl Hn Hs; simpl; [auto|].
    destruct (toggle_keeps_selection_valid userCards id prev Hl Hn Hs) as (A & B & C).
    apply IH; assumption. }
  apply G; [simpl; lia|constructor|intros x []].
Qed.

(** X16. Selecting and deselecting is a round trip: for a card of
    [userCards] that is not selected while fewer than 3 are, the first
    toggle appends it without alert and the second toggle restores the
    selection exactly. *)
Theorem toggle_twice_restores userCards id prev :
  existsb (fun card => String.eqb (Frontend.tokenId card) id) userCards = true ->
  ~ In id prev -> (length prev < 3)%nat ->
  Frontend.toggleCardSelection userCards id prev = (prev ++ [id], None) /\
  Frontend.toggleCardSelection userCards id (prev ++ [id]) = (prev, None).
Proof.
  intros Hex Hout Hlen. unfold Frontend.toggleCardSelection. rewrite Hex. cbn [negb].
  assert (Hsel : existsb (String.eqb id) prev = false).
  { destruct (existsb (String.eqb id) prev) eqn:E; [|reflexivity].
    apply existsb_eqb_In in E. contradiction. }
  rewrite Hsel.
  destruct (Nat.leb_spec 3 (length prev)); [lia|]. split; [reflexivity|].
  assert (Hsel' : existsb (String.eqb id) (prev ++ [id]) = true).
  { apply existsb_eqb_In. apply in_or_app. right. left. reflexivity. }
  rewrite Hsel'. rewrite List.filter_app, filter_out_absent by assumption.
  simpl. rewrite String.eqb_refl. simpl. rewrite app_nil_r. reflexivity.
Qed.

(** X17. A selected card can always be deselected, also when 3 are
    selected, while a fourth card is refused with the alert and the
    selection stays; a card that is not in [userCards] is refused with its
    own alert. *)
Theorem toggle_limits userCards id prev :
  (existsb (fun card => String.eqb (Frontend.tokenId card) id) userCards = false ->
   fst (Frontend.toggleCardSelection userCards id prev) = prev /\
   snd (Frontend.toggleCardSelection userCards id prev) <> None) /\
  (existsb (fun card => String.eqb (Frontend.tokenId card) id) userCards = true ->
   In id prev ->
   ~ In id (fst (Frontend.toggleCardSelection userCards id prev)) /\
   snd (Frontend.toggleCardSelection userCards id prev) = None) /\
  (existsb (fun card => String.eqb (Frontend.tokenId card) id) userCards = true ->
   ~ In id prev -> (3 <= length prev)%nat ->
   Frontend.toggleCardSelection userCards id prev =
   (prev, Some "You can only select 3 cards for battle"%string)).
Proof.
  unfold Frontend.toggleCardSelection. split; [|split].
  - intros ->. cbn [negb fst snd]. split; [reflexivity|discriminate].
  - intros -> Hin. cbn [negb]. apply existsb_eqb_In in Hin. rewrite Hin. cbn [fst snd].
    split; [|reflexivity]. intros H. apply filter_In in H as [_ H].
    rewrite String.eqb_refl in H. discriminate.
  - intros -> Hout Hlen. cbn [negb].
    destruct (existsb (String.eqb id) prev) eqn:E;
      [apply existsb_eqb_In in E; contradiction|].
    destruct (Nat.leb_spec 3 (length prev)); [reflexivity|lia].
Qed.

Lemma idsFrom_shift a m x len :
  a + N.of_nat x = m ->
  forall k0, map (fun k => a + N.of_nat k) (seq (x + k0) len)
             = map (fun k => m + N.of_nat k) (seq k0 len).
Proof.
  intros E. induction len as [|len IH]; intros k0; simpl; [reflexivity|].
  f_equal; [lia|]. rewrite <- (IH (S k0)). f_equal. f_equal. lia.
Qed.

Lemma idsFrom_split a m b :
  a <= m -> m <= b -> Frontend.idsFrom a b = Frontend.idsFrom a m ++ Frontend.idsFrom m b.
Proof.
  intros H1 H2. unfold Frontend.idsFrom.
  replace (N.to_nat (b - a)) with (N.to_nat (m - a) + N.to_nat (b - m))%nat by lia.
  rewrite seq_app, map_app. f_equal.
  rewrite <- (Nat.add_0_r (0 + N.to_nat (m - a))).
  apply idsFrom_shift. lia.
Qed.

Lemma idsFrom_empty a b : b <= a -> Frontend.idsFrom a b = [].
Proof.
  intros H. unfold Frontend.idsFrom.
  replace (N.to_nat (b - a)) with 0%nat by lia. reflexivity.
Qed.

Lemma elem_of_idsFrom a b x : In x (Frontend.idsFrom a b) <-> a <= x < b.
Proof.
  unfold Frontend.idsFrom. rewrite in_map_iff. split.
  - intros (k & <- & Hk). apply in_seq in Hk. lia.
  - intros H. exists (N.to_nat (x - a)). split; [lia|]. apply in_seq. lia.
Qed.

Lemma scanBatches_enough {A} (probe : N -> option A) nextIdNum fuel :
  forall startId ownedCards,
    nextIdNum <= startId + Frontend.batchSize * N.of_nat fuel ->
    Frontend.scanBatches fuel probe startId nextIdNum ownedCards
    = Some (ownedCards ++ omap (fun c => c) (map probe (Frontend.idsFrom startId nextIdNum))).
Proof.
  unfold Frontend.batchSize.
  induction fuel as [|fuel IH]; intros startId ownedCards Hfuel.
  - simpl. destruct (N.ltb_spec startId nextIdNum); [lia|].
    rewrite idsFrom_empty by assumption. simpl. rewrite app_nil_r. reflexivity.
  - cbn [Frontend.scanBatches]. destruct (N.ltb_spec startId nextIdNum) as [Hlt|Hge].
    + unfold Frontend.batchSize. rewrite IH by lia.
      rewrite <- app_assoc. f_equal. f_equal.
      rewrite <- omap_app, <- map_app. f_equal. f_equal.
      destruct (N.min_spec (startId + 10) nextIdNum) as [[Hm ->]|[Hm ->]].
      * symmetry. apply idsFrom_split; lia.
      * rewrite (idsFrom_empty (startId + 10)) by lia. rewrite app_nil_r. reflexivity.
    + rewrite idsFrom_empty by assumption. simpl. rewrite app_nil_r. reflexivity.
Qed.

(** X18. The batched scan of [loadUserCards] ends, and batching does not
    show in its result: it is the list of the non-null answers for the ids
    1, 2, ..., nextId - 1, each id asked once and in increasing order.  For
    a counter that a JavaScript number holds exactly. *)
Theorem scan_covers_every_id {A} (probe : N -> option A) nextIdNum :
  nextIdNum + Frontend.batchSize <= 2 ^ 53 ->
  Frontend.scanBatches (N.to_nat nextIdNum) probe 1 nextIdNum []
  = Some (omap (fun c => c) (map probe (Frontend.idsFrom 1 nextIdNum))) /\
  NoDup (Frontend.idsFrom 1 nextIdNum) /\
  (forall x, In x (Frontend.idsFrom 1 nextIdNum) <-> 1 <= x < nextIdNum).
Proof.
  intros _. split; [|split].
  - rewrite scanBatches_enough; [reflexivity|]. unfold Frontend.batchSize. lia.
  - unfold Frontend.idsFrom. apply NoDup_ListNoDup.
    apply Finite.Injective_map_NoDup; [|apply List.seq_NoDup].
    intros x y H. lia.
  - intros x. apply elem_of_idsFrom.
Qed.

(** ** The contract on concrete calls

    Alice mints tokens 1 and 2; with the sample digest they come out as
    (99,69,29,5) and (94,64,24,5). *)

Ltac evaluate :=
  vm_compute; first [reflexivity | discriminate | intro; discriminate].

Lemma battle_scoring_witness :
  let s := fst (run sampleDigest acceptAll
                  [(aliceAt 1700000000, MintCard); (aliceAt 1700000010, MintCard)]
                  initState) in
  lookupCard s 1 = mkCard 99 69 29 5 /\ lookupCard s 2 = mkCard 94 64 24 5 /\
  battleRand sampleDigest (aliceAt 1700000020) = 4 /\
  battle sampleDigest (aliceAt 1700000020) 1 2 s = Ok ("Card 1 Wins!"%string, s).
Proof.
  intros s. split; [evaluate|]. split; [evaluate|]. split; [evaluate|].
  destruct (battle_scoring sampleDigest (aliceAt 1700000020) 1 2 s)
    as (_ & _ & Hwin & _); [evaluate ..|].
  apply Hwin. evaluate.
Defined.

Lemma mint_stat_bounds_witness :
  exists c,
    getCard 1 (transact (mintCard sampleDigest acceptAll (aliceAt 1700000000)) initState)
    = Ok (c, transact (mintCard sampleDigest acceptAll (aliceAt 1700000000)) initState) /\
    50 <= power c <= 99 /\ 30 <= defense c <= 69 /\
    10 <= speed c <= 29 /\ 1 <= rarity c <= 5.
Proof.
  apply (mint_stat_bounds sampleDigest acceptAll (aliceAt 1700000000) initState).
  evaluate.
Defined.

Lemma upgrade_stats_witness :
  let s := mkState 3 (<[2 := mkCard 80 50 25 4]> (<[1 := mkCard 60 40 20 2]> ∅))
                     (<[2 := alice]> (<[1 := alice]> ∅)) in
  let s' := transact (upgrade acceptAll (aliceAt 1700000020) 1 2) s in
  upgrade acceptAll (aliceAt 1700000020) 1 2 s = Ok (tt, s') /\
  lookupCard s' 3 = mkCard 80 50 27 4.
Proof.
  intros s s'.
  assert (U : upgrade acceptAll (aliceAt 1700000020) 1 2 s = Ok (tt, s')) by evaluate.
  split; [exact U|].
  destruct (upgrade_stats acceptAll (aliceAt 1700000020) 1 2 s s' U)
    as (_ & _ & _ & _ & Hexample).
  apply Hexample; evaluate.
Defined.

(** C4.  Fusing Alice's two rarity-5 cards stores a card of rarity 6: the
    rarity of a fused card is (r1 + r2)/2 + 1 with no cap at 5. *)
Theorem upgrade_rarity_exceeds_five :
  let s := fst (run sampleDigest acceptAll
                  [(aliceAt 1700000000, MintCard); (aliceAt 1700000010, MintCard)]
                  initState) in
  let s' := transact (upgrade acceptAll (aliceAt 1700000020) 1 2) s in
  rarity (lookupCard s 1) = 5 /\ rarity (lookupCard s 2) = 5 /\
  upgrade acceptAll (aliceAt 1700000020) 1 2 s = Ok (tt, s') /\
  getCard 3 s' = Ok (mkCard 106 71 31 6, s') /\
  5 < rarity (lookupCard s' 3).
Proof. repeat split; evaluate. Qed.


Lemma upgrade_NotOwner_counterexample :
  ownerAt initState 1 <> sender (aliceAt 1700000020) /\
  upgrade acceptAll (aliceAt 1700000020) 1 2 initState
  = Revert (ERC721NonexistentToken 1) /\
  upgrade acceptAll (aliceAt 1700000020) 1 2 initState
  <> Revert (RequireFailed "Not owner").
Proof. repeat split; evaluate. Qed.

Lemma upgrade_not_owner_fails_witness :
  let s := fst (run sampleDigest acceptAll
                  [(aliceAt 1700000000, MintCard); (aliceAt 1700000010, MintCard)]
                  initState) in
  transact (upgrade acceptAll (bobAt 1700000020) 1 2) s = s /\
  upgrade acceptAll (bobAt 1700000020) 1 2 s = Revert (RequireFailed "Not owner").
Proof.
  intros s.
  destruct (upgrade_not_owner_fails acceptAll (bobAt 1700000020) 1 2 s)
    as (Hsame & _ & Herr).
  - intros [[_ Hown] _]. vm_compute in Hown. discriminate Hown.
  - split; [exact Hsame|]. apply Herr; evaluate.
Defined.


Lemma derive_deterministic_total_witness :
  mintRand sampleDigest (aliceAt 1700000000) 1
  = mintRand sampleDigest (mkEnv 1700000000 2748) 1 /\
  mintRand sampleDigest (aliceAt 1700000000) 1 < UINT256_LIMIT.
Proof.
  destruct (derive_deterministic_total sampleDigest acceptAll
              (aliceAt 1700000000) (mkEnv 1700000000 2748) 1 1)
    as (Hsame & Hrange & _); [reflexivity ..|].
  split; assumption.
Defined.

Lemma mint_attributes_correlated_witness :
  let s := transact (mintCard sampleDigest acceptAll (aliceAt 1700000000)) initState in
  let s' := transact (mintCard sampleDigest acceptAll (aliceAt 1700000010)) s in
  lookupCard s' 2 = mkCard 94 64 24 5 /\
  (power (lookupCard s' 2) - 50) mod 10 = (defense (lookupCard s' 2) - 30) mod 10 /\
  rarity (lookupCard s' 2) = (power (lookupCard s' 2) - 50) mod 5 + 1.
Proof.
  intros s s'. split; [evaluate|].
  destruct (mint_attributes_correlated sampleDigest acceptAll (aliceAt 1700000010)
              s s') as (_ & _ & _ & _ & Hpd & _ & _ & Hr); [evaluate|].
  split; assumption.
Defined.


(** ** Further runs on concrete calls *)

Lemma battle_missing_card_witness :
  battle sampleDigest (aliceAt 1700000020) 1 2 initState
  = Revert (ERC721NonexistentToken 1).
Proof.
  destruct (battle_missing_card sampleDigest (aliceAt 1700000020) 1 2 initState)
    as (Hfirst & _).
  apply Hfirst. evaluate.
Defined.

Lemma battle_decisive_margin_witness :
  let s := fst (run sampleDigest acceptAll
                  [(aliceAt 1700000000, MintCard); (aliceAt 1700000010, MintCard)]
                  initState) in
  battle sampleDigest (bobAt 1700000040) 1 2 s = Ok ("Card 1 Wins!"%string, s) /\
  battle sampleDigest (bobAt 1700000041) 1 2 s = Ok ("Card 1 Wins!"%string, s).
Proof.
  intros s. split.
  - destruct (battle_decisive_margin sampleDigest (bobAt 1700000040) 1 2 s)
      as (Hwin & _); [evaluate ..|].
    apply Hwin. evaluate.
  - destruct (battle_decisive_margin sampleDigest (bobAt 1700000041) 1 2 s)
      as (Hwin & _); [evaluate ..|].
    apply Hwin. evaluate.
Defined.

Lemma battle_equal_scores_witness :
  let s := fst (run sampleDigest acceptAll
                  [(aliceAt 1700000000, MintCard); (aliceAt 1700000010, MintCard)]
                  initState) in
  battle sampleDigest (aliceAt 1700000020) 1 1 s = Ok ("Card 2 Wins!"%string, s).
Proof.
  intros s.
  rewrite (battle_equal_scores sampleDigest (aliceAt 1700000020) 1 1 s);
    [reflexivity|evaluate ..].
Defined.



Lemma battle_returns_witness :
  let s := fst (run sampleDigest acceptAll
                  [(aliceAt 1700000000, MintCard); (aliceAt 1700000010, MintCard)]
                  initState) in
  exists r, battle sampleDigest (bobAt 1700000040) 2 1 s = Ok (r, s) /\
            (r = "Card 1 Wins!" \/ r = "Card 2 Wins!" \/ r = "Draw!")%string.
Proof.
  intros s.
  apply (battle_returns sampleDigest acceptAll
           [(aliceAt 1700000000, MintCard); (aliceAt 1700000010, MintCard)]
           s [1; 2]); evaluate.
Defined.


Lemma upgrade_succeeds_iff_witness :
  let s := fst (run sampleDigest acceptAll
                  [(aliceAt 1700000000, MintCard); (aliceAt 1700000010, MintCard)]
                  initState) in
  (exists s', upgrade acceptAll (aliceAt 1700000020) 1 2 s = Ok (tt, s')) /\
  ~ (exists s', upgrade acceptAll (bobAt 1700000020) 1 2 s = Ok (tt, s')).
Proof.
  intros s. split.
  - apply (upgrade_succeeds_iff sampleDigest acceptAll
             [(aliceAt 1700000000, MintCard); (aliceAt 1700000010, MintCard)]
             s [1; 2] (aliceAt 1700000020) 1 2); [evaluate ..|].
    repeat split; evaluate.
  - intros H.
    apply (upgrade_succeeds_iff sampleDigest acceptAll
             [(aliceAt 1700000000, MintCard); (aliceAt 1700000010, MintCard)]
             s [1; 2] (bobAt 1700000020) 1 2) in H; [|evaluate ..].
    destruct H as ((_ & Hown) & _). vm_compute in Hown. discriminate Hown.
Defined.


Lemma upgrade_of_two_mints_witness :
  let s1 := transact (mintCard sampleDigest acceptAll (aliceAt 1700000000)) initState in
  let s2 := transact (mintCard sampleDigest acceptAll (aliceAt 1700000010)) s1 in
  let s3 := transact (upgrade acceptAll (aliceAt 1700000020) 1 2) s2 in
  exists c, getCard 3 s3 = Ok (c, s3) /\
    (60 <= power c /\ power c <= 109) /\ (35 <= defense c /\ defense c <= 74) /\
    (15 <= speed c /\ speed c <= 34) /\ (2 <= rarity c /\ rarity c <= 6).
Proof.
  intros s1 s2 s3.
  apply (upgrade_of_two_mints sampleDigest acceptAll
           (aliceAt 1700000000) (aliceAt 1700000010) (aliceAt 1700000020)
           initState s1 s2 s3); evaluate.
Defined.

Lemma mint_seed_unambiguous_witness :
  length (packUint256 1700000000 ++ packAddress alice ++ packUint256 1) = 84%nat.
Proof.
  destruct (mint_seed_unambiguous (aliceAt 1700000000) (aliceAt 1700000000) 1 1)
    as (Hlen & _); [evaluate ..|].
  exact Hlen.
Defined.

Lemma toggle_twice_restores_witness :
  let userCards := [Frontend.mkUserCard "1" 99 69 29 0 5;
                    Frontend.mkUserCard "2" 94 64 24 0 5] in
  Frontend.toggleCardSelection userCards "2" ["1"%string] = (["1"; "2"]%string, None) /\
  Frontend.toggleCardSelection userCards "2" ["1"; "2"]%string = (["1"%string], None).
Proof.
  intros userCards.
  apply (toggle_twice_restores userCards "2" ["1"%string]).
  - reflexivity.
  - intros [H|[]]. discriminate H.
  - simpl. lia.
Defined.

Lemma toggle_limits_witness :
  let userCards := [Frontend.mkUserCard "1" 99 69 29 0 5;
                    Frontend.mkUserCard "2" 94 64 24 0 5;
                    Frontend.mkUserCard "3" 60 40 20 0 2;
                    Frontend.mkUserCard "4" 80 50 25 0 4] in
  Frontend.toggleCardSelection userCards "4" ["1"; "2"; "3"]%string
  = (["1"; "2"; "3"]%string, Some "You can only select 3 cards for battle"%string).
Proof.
  intros userCards.
  destruct (toggle_limits userCards "4" ["1"; "2"; "3"]%string) as (_ & _ & Hfull).
  apply Hfull.
  - reflexivity.
  - intros [H|[H|[H|[]]]]; discriminate H.
  - simpl. lia.
Defined.

Lemma scan_covers_every_id_witness :
  Frontend.scanBatches 25 (fun i => if N.even i then Some i else None) 1 25 []
  = Some [2; 4; 6; 8; 10; 12; 14; 16; 18; 20; 22; 24].
Proof.
  destruct (scan_covers_every_id (fun i => if N.even i then Some i else None) 25)
    as (Hscan & _); [evaluate|].
  exact Hscan.
Defined.


Lemma upgrade_rarity_gain_witness :
  let s := fst (run sampleDigest acceptAll
                  [(aliceAt 1700000000, MintCard); (aliceAt 1700000010, MintCard)]
                  initState) in
  let s' := transact (upgrade acceptAll (aliceAt 1700000020) 1 2) s in
  rarity (lookupCard s' 3) = rarity (lookupCard s 1) + 1.
Proof.
  intros s s'.
  destruct (upgrade_rarity_gain acceptAll (aliceAt 1700000020) 1 2 s s') as (Heq & _);
    [evaluate|].
  apply Heq. evaluate.
Defined.

(** ** Runs with receiver hooks on concrete calls

    [alice] mints twice and fuses the two tokens; in some runs her receiver
    hook calls back into the contract. *)

(** A mint whose hook fuses the token just received with an older one: the
    fusion reads the card of token 2 before it is written, so card 3 is the
    fusion of card 1 with the all-zero card; card 2 is written afterwards on
    a token that is already burned. *)
Example hook_fuses_unwritten_card :
  let '(s, ids) := runTxs sampleDigest
                     [(1700000000, tx alice MintCard [] HookAccepts);
                      (1700000010, tx alice MintCard
                                     [tx alice (Upgrade 1 2) [] HookAccepts] HookAccepts)]
                     initState in
  ids = [1; 2; 3] /\ nextId s = 4 /\
  ownerAt s 1 = 0 /\ ownerAt s 2 = 0 /\ ownerAt s 3 = alice /\
  lookupCard s 1 = mkCard 99 69 29 5 /\
  lookupCard s 2 = mkCard 94 64 24 5 /\
  lookupCard s 3 = mkCard 59 39 19 3.
Proof. vm_compute. repeat split; reflexivity. Qed.

(** A hook that mints again and fuses the two tokens whose cards are both
    still unwritten: the lowest card there is. *)
Example hook_fuses_two_unwritten_cards :
  let '(s, ids) := runTxs sampleDigest
                     [(1700000000,
                       tx alice MintCard
                         [tx alice MintCard [tx alice (Upgrade 1 2) [] HookAccepts]
                             HookAccepts]
                         HookAccepts)]
                     initState in
  ids = [1; 2; 3] /\ ownerAt s 3 = alice /\ lookupCard s 3 = mkCard 10 5 5 1.
Proof. vm_compute. repeat split; reflexivity. Qed.

(** A hook that does not accept undoes the whole transaction, the calls it
    made included; a call of a hook that reverts is undone alone. *)
Example hook_outcomes :
  let minted := fst (runTxs sampleDigest
                       [(1700000000, tx alice MintCard [] HookAccepts)] initState) in
  runTxs sampleDigest
    [(1700000010, tx alice MintCard [tx alice MintCard [] HookAccepts] HookRejects)]
    minted = (minted, []) /\
  exec sampleDigest 1700000010
    (tx alice MintCard [] (HookReverts (Some (RequireFailed "no cards")))) minted
  = Revert (RequireFailed "no cards") /\
  exec sampleDigest 1700000010 (tx alice MintCard [] (HookReverts None)) minted
  = Revert (ERC721InvalidReceiver alice) /\
  snd (runTxs sampleDigest
         [(1700000010, tx alice MintCard
                         [tx bob (Upgrade 1 2) [] HookAccepts;
                          tx bob MintCard [] HookAccepts] HookAccepts)]
         minted) = [2; 3].
Proof. vm_compute. repeat split; reflexivity. Qed.



Lemma ids_strictly_increasing_witness :
  let txs := [(1700000000, tx alice MintCard [] HookAccepts);
              (1700000010, tx alice MintCard
                             [tx alice (Upgrade 1 2) [] HookAccepts] HookAccepts);
              (1700000020, tx bob (Upgrade 1 2) [] HookAccepts);
              (1700000030, tx bob MintCard [] HookAccepts)] in
  snd (runTxs sampleDigest txs initState) = [1; 2; 3; 4] /\
  StronglySorted N.lt [1; 2; 3; 4] /\ NoDup [1; 2; 3; 4].
Proof.
  intros txs. split; [evaluate|].
  destruct (ids_strictly_increasing sampleDigest txs
              (fst (runTxs sampleDigest txs initState)) [1; 2; 3; 4])
    as (Hsorted & Hnodup & _); [evaluate|].
  split; assumption.
Defined.

Lemma nextId_counts_created_witness :
  let txs := [(1700000000, tx alice MintCard [] HookAccepts);
              (1700000010, tx alice MintCard
                             [tx alice (Upgrade 1 2) [] HookAccepts] HookAccepts);
              (1700000020, tx bob (Upgrade 1 2) [] HookAccepts)] in
  let s := fst (runTxs sampleDigest txs initState) in
  nextId s = 1 + N.of_nat (length [1; 2; 3]).
Proof.
  intros txs s.
  destruct (nextId_counts_created sampleDigest txs s [1; 2; 3])
    as (Hcount & _); [evaluate|].
  exact Hcount.
Defined.


Lemma mintCard_frame_witness :
  let s := fst (runTxs sampleDigest
                  [(1700000000, tx alice MintCard [] HookAccepts)] initState) in
  let s' := fst (runTxs sampleDigest [(1700000010, tx bob MintCard [] HookAccepts)] s) in
  ownerAt s' 2 = bob /\ ownerAt s' 1 = alice /\ lookupCard s' 1 = mkCard 99 69 29 5.
Proof.
  intros s s'.
  destruct (mintCard_frame sampleDigest
              [(1700000000, tx alice MintCard [] HookAccepts)] s [1]
              1700000010 bob [] HookAccepts [2] s')
    as (Hcard & _ & Hplain); [evaluate ..|].
  destruct (Hplain eq_refl) as (_ & Hnew & Hrest).
  split; [exact Hnew|]. split.
  - rewrite (Hrest 1); evaluate.
  - rewrite (Hcard 1); [evaluate|].
    intros Hin. apply elem_of_cons in Hin as [Hin|Hin]; [discriminate Hin|].
    apply elem_of_nil in Hin. exact Hin.
Defined.

Lemma upgrade_frame_witness :
  let s := fst (runTxs sampleDigest
                  [(1700000000, tx alice MintCard [] HookAccepts);
                   (1700000010, tx alice MintCard [] HookAccepts)] initState) in
  let fuse := tx alice (Upgrade 1 2) [tx alice MintCard [] HookAccepts] HookAccepts in
  let s' := fst (runTxs sampleDigest [(1700000020, fuse)] s) in
  ownerAt s' 1 = 0 /\ ownerAt s' 2 = 0 /\
  exec sampleDigest 1700000030 (tx alice (Upgrade 1 2) [] HookAccepts) s'
  = Revert (ERC721NonexistentToken 1).
Proof.
  intros s fuse s'.
  destruct (upgrade_frame sampleDigest
              [(1700000000, tx alice MintCard [] HookAccepts);
               (1700000010, tx alice MintCard [] HookAccepts)]
              s [1; 2] 1700000020 alice 1 2 [tx alice MintCard [] HookAccepts]
              HookAccepts [3; 4] s')
    as (H1 & H2 & _ & _ & Hagain & _); [evaluate ..|].
  split; [exact H1|]. split; [exact H2|].
  exact (Hagain 1700000030 [] HookAccepts).
Defined.

Lemma rarity_mass_bounded_witness :
  let txs := [(1700000000, tx alice MintCard [] HookAccepts);
              (1700000010, tx alice MintCard [] HookAccepts);
              (1700000020, tx alice (Upgrade 1 2)
                             [tx alice MintCard [] HookAccepts] HookAccepts)] in
  let s := fst (runTxs sampleDigest txs initState) in
  rarity (lookupCard s 3) = 6 /\ 2 ^ rarity (lookupCard s 3) <= 32 * 4.
Proof.
  intros txs s. split; [evaluate|].
  destruct (rarity_mass_bounded sampleDigest txs s [1; 2; 3; 4]) as (_ & Hcard);
    [evaluate|].
  apply (Hcard 3). evaluate.
Defined.

End BattleCard.
